(** * Word ladder: breadth-first search for a shortest transformation sequence

    Shallow embedding of [word_ladder] and [is_one_letter_different] of
    [wordLadder.py], followed by the properties of the search.

    Conventions of the embedding:
    - a Python [str] is a [string] (characters are 8-bit [ascii]);
    - the [set]s [dictionary] and [visited] are [gset string];
    - the [deque] of [(current_word, path)] pairs is a [list], [popleft]
      takes the head and [append] adds at the end;
    - the loops thread the two mutable locals [queue] and [visited] as a
      record, and signal an early [return] or an exception through [flow];
    - the [while] loop is driven by a fuel counter, one unit per test of the
      loop condition. *)

From Stdlib Require Import Ascii.
From Stdlib Require String.
From stdpp Require Import gmap strings list fin_maps relations.

(** ** Strings *)

(** [s[:n]] *)
Fixpoint slice_to (n : nat) (s : string) : string :=
  match n, s with
  | S n', String a s' => String a (slice_to n' s')
  | _, _ => ""
  end.

(** [s[n:]] *)
Fixpoint slice_from (n : nat) (s : string) : string :=
  match n, s with
  | S n', String _ s' => slice_from n' s'
  | _, _ => s
  end.

(** The string iterated by [for c in 'abcdefghijklmnopqrstuvwxyz']. *)
Definition alphabet : list ascii :=
  String.list_ascii_of_string "abcdefghijklmnopqrstuvwxyz".

(** ** Control flow *)

(** How a call ends: it returns a list of words, or an [IndexError] escapes. *)
Inductive completion :=
  | Returned (r : list string)
  | IndexError.

(** Outcome of a loop body: fall through to the next iteration with the
    updated locals, or leave the function. *)
Inductive flow (S : Type) :=
  | Next (s : S)
  | Done (c : completion).
Arguments Next {S} s.
Arguments Done {S} c.

(** [for x in xs: body], with the locals threaded through. *)
Fixpoint for_each {A S : Type} (xs : list A) (body : A → S → flow S) (s : S)
    : flow S :=
  match xs with
  | [] => Next s
  | x :: xs' =>
      match body x s with
      | Next s' => for_each xs' body s'
      | Done c => Done c
      end
  end.

(** ** The search *)

Record bfs_state := BfsState {
  queue : list (string * list string);
  visited : gset string
}.

(** [current_word[:i] + c + current_word[i+1:]] *)
Definition new_word_of (current_word : string) (i : nat) (c : ascii) : string :=
  slice_to i current_word +:+ String c "" +:+ slice_from (i + 1) current_word.

(** Body of the innermost loop (lines 37-50). *)
Definition body (end_ : string) (dictionary : gset string)
    (current_word : string) (path : list string) (i : nat) (c : ascii)
    (st : bfs_state) : flow bfs_state :=
  match String.get i current_word with
  | None => Done IndexError
  | Some ci =>
      if decide (c = ci) then Next st
      else
        let new_word := new_word_of current_word i c in
        if decide (new_word = end_) then Done (Returned (path ++ [new_word]))
        else if decide (new_word ∈ dictionary ∧ new_word ∉ visited st) then
          Next (BfsState (queue st ++ [(new_word, path ++ [new_word])])
                         (visited st ∪ {[new_word]}))
        else Next st
  end.

(** The two nested [for] loops (lines 35-50). *)
Definition expand (end_ : string) (dictionary : gset string)
    (current_word : string) (path : list string) (st : bfs_state)
    : flow bfs_state :=
  for_each (seq 0 (String.length current_word)) (λ i,
    for_each alphabet (λ c,
      body end_ dictionary current_word path i c)) st.

(** The [while queue:] loop (lines 31-53); [None] means the fuel ran out. *)
Fixpoint bfs (fuel : nat) (end_ : string) (dictionary : gset string)
    (st : bfs_state) : option completion :=
  match fuel with
  | 0 => None
  | S fuel' =>
      match queue st with
      | [] => Some (Returned [])
      | (current_word, path) :: rest =>
          match expand end_ dictionary current_word path
                  (BfsState rest (visited st)) with
          | Next st' => bfs fuel' end_ dictionary st'
          | Done c => Some c
          end
      end
  end.

(** State after lines 28-29. *)
Definition initial_state (start : string) : bfs_state :=
  BfsState [(start, [start])] {[start]}.

(** [word_ladder] on set values: [set(dictionary)] followed by [add(start)]
    yields the union with the singleton. *)
Definition word_ladder_fuel (fuel : nat) (start end_ : string)
    (dictionary : gset string) : option completion :=
  if decide (start = end_) then Some (Returned [start])
  else if decide (end_ ∉ dictionary) then Some (Returned [])
  else
    let dictionary := dictionary ∪ {[start]} in
    bfs fuel end_ dictionary (initial_state start).

Definition word_ladder (start end_ : string) (dictionary : gset string)
    : option completion :=
  word_ladder_fuel (size dictionary + 2) start end_ dictionary.

(** [is_one_letter_different] (lines 56-62). *)
Fixpoint zip_diff_count (word1 word2 : string) : nat :=
  match word1, word2 with
  | String c1 w1, String c2 w2 =>
      (if decide (c1 ≠ c2) then 1 else 0) + zip_diff_count w1 w2
  | _, _ => 0
  end.

Definition is_one_letter_different (word1 word2 : string) : bool :=
  if decide (String.length word1 ≠ String.length word2) then false
  else bool_decide (zip_diff_count word1 word2 = 1).

(** ** Adjacency *)

(** Two words are adjacent when they have the same length and differ in
    exactly one position, which is what [is_one_letter_different] tests. *)
Definition adjacent (word1 word2 : string) : Prop :=
  String.length word1 = String.length word2 ∧ zip_diff_count word1 word2 = 1.

(** [y] is produced from [w] by the candidate generator: some position [i]
    of [w] is overwritten by a letter [c] of the alphabet other than
    [w[i]] (lines 35-41). *)
Definition edge (w y : string) : Prop :=
  ∃ i c ci, String.get i w = Some ci ∧ c ∈ alphabet ∧ c ≠ ci ∧
            y = new_word_of w i c.

(** The same relation in the words of the data model: [w] and [y] are
    adjacent and the character of [y] at the position where they differ is
    one of the letters a-z. *)
Definition lowercase_step (w y : string) : Prop :=
  is_one_letter_different w y = true ∧
  ∀ i a b, String.get i w = Some a → String.get i y = Some b → a ≠ b →
           b ∈ alphabet.

(** ** The call on set objects *)

(** The caller passes a reference to a [set] object. The heap maps the
    addresses of the live set objects to their contents; a local variable
    holding a set is an address. [set(dictionary)] allocates a new object
    with the same contents and the assignment rebinds the local, after which
    [dictionary.add(start)] updates the object the local now refers to.
    [queue], [visited] and the paths are objects created by the call and
    never handed out, so they stay in [bfs_state]. [None] is returned when
    the fuel runs out or [dictionary] is not the address of a live object. *)
Abbreviation heap := (gmap nat (gset string)).

Definition word_ladder_ref (fuel : nat) (start end_ : string)
    (dictionary : nat) (h : heap) : option (completion * heap) :=
  if decide (start = end_) then Some (Returned [start], h)
  else
    match h !! dictionary return option (completion * heap) with
    | None => None
    | Some d =>
        if decide (end_ ∉ (d : gset string)) then Some (Returned [], h)
        else
          let dictionary := fresh (dom h) in
          let h := <[dictionary := d]> h in
          let h := alter (λ s : gset string, s ∪ {[start]}) dictionary h in
          match h !! dictionary with
          | None => None
          | Some d =>
              match bfs fuel end_ d (initial_state start) with
              | None => None
              | Some c => Some (c, h)
              end
          end
    end.

(** ** The search observed step by step *)

(** A configuration records the two locals and, as history, the words that
    [popleft] has taken off the queue so far. *)
Record config := Config {
  dequeued : list string;
  locals : bfs_state
}.

(** The words put on the queue so far: those taken off again and those
    still on it. *)
Definition enqueued (cfg : config) : list string :=
  dequeued cfg ++ (queue (locals cfg)).*1.

(** The statements of the loop that change [queue] or [visited]:
    [queue.popleft()] (line 32) and one run of the body of the innermost
    loop (lines 37-50) that falls through. The word, path, position and
    letter of the body are left free, so every execution of the nested loops
    is a sequence of such steps. *)
Inductive step (end_ : string) (dictionary : gset string)
    : config → config → Prop :=
  | step_popleft ws w path rest V :
      step end_ dictionary
        (Config ws (BfsState ((w, path) :: rest) V))
        (Config (ws ++ [w]) (BfsState rest V))
  | step_body ws w path i c st st' :
      body end_ dictionary w path i c st = Next st' →
      step end_ dictionary (Config ws st) (Config ws st').

(** The configuration when the [while] loop is first reached. *)
Definition initial_config (start : string) : config :=
  Config [] (initial_state start).

(** ** The verification loop of the example driver *)

(** The loop of [test_word_ladder] that checks its result (lines 79-85): for
    a non-empty [result] it computes [is_one_letter_different(result[i],
    result[i + 1])] for [i] in [range(len(result) - 1)]. The list holds the
    flags in the order they are printed; [None] stands for an [IndexError]
    raised by one of the two subscripts. *)
Definition verification (result : list string) : option (list bool) :=
  if decide (result = []) then Some []
  else
    mapM (λ i : nat,
            match result !! i, result !! (i + 1) with
            | Some current, Some next_word =>
                Some (is_one_letter_different current next_word)
            | _, _ => None
            end)
         (seq 0 (length result - 1)).

(** ** Example data *)

(** The lexicon of the example in the source. *)
Definition example_lexicon : gset string :=
  {[ "hot"; "dot"; "dog"; "lot"; "log"; "cog" ]}.

(** A lexicon with an upper-case detour. *)
Definition detour_lexicon : gset string :=
  {[ "aB"; "bB"; "bb"; "ac"; "cc"; "cb" ]}.

(** Two configurations of the search from "cat" with lexicon {"bat"}: after
    the first [popleft], and after the body then ran at position 0 with the
    letter b. *)
Definition after_popleft : config :=
  Config ["cat"] (BfsState [] {[ "cat" ]}).

Definition after_body : config :=
  Config ["cat"] (BfsState [("bat", ["cat"; "bat"])] ({[ "cat" ]} ∪ {[ "bat" ]})).

(** ** Auxiliary notions for the loop invariants *)

(** Every candidate of [x] has been looked at with visited set [V]: none is
    the target, and each one that lies in the dictionary is visited. *)
Definition explored (end_ : string) (dictionary V : gset string) (x : string)
    : Prop :=
  ∀ y, edge x y → y ≠ end_ ∧ (y ∈ dictionary → y ∈ V).

(** The same for the single candidate at position [i] with letter [c]. *)
Definition tried (end_ : string) (dictionary V : gset string) (w : string)
    (i : nat) (c : ascii) : Prop :=
  ∀ ci, String.get i w = Some ci → c ≠ ci →
        new_word_of w i c ≠ end_ ∧
        (new_word_of w i c ∈ dictionary → new_word_of w i c ∈ V).

(** Queue entries appended for the words [news] found from a word reached
    by [path]. *)
Definition entries_of (path : list string) (news : list string)
    : list (string * list string) :=
  (λ y, (y, path ++ [y])) <$> news.

(** [st'] is [st] after the words [news], found from [w], were enqueued. *)
Record expanded (end_ : string) (dictionary : gset string) (w : string)
    (path : list string) (st st' : bfs_state) (news : list string) : Prop := {
  exp_queue : queue st' = queue st ++ entries_of path news;
  exp_visited : visited st' = visited st ∪ list_to_set news;
  exp_nodup : NoDup news;
  exp_news : ∀ y, y ∈ news →
                  edge w y ∧ y ∈ dictionary ∧ (y ∉ visited st) ∧ y ≠ end_
}.

(** Consecutive elements of a list are related by [R]. *)
Fixpoint linked (R : string → string → Prop) (l : list string) : Prop :=
  match l with
  | x :: l' =>
      match l' with
      | y :: _ => R x y ∧ linked R l'
      | [] => True
      end
  | [] => True
  end.

(** What a path stored in the queue for the word [w] looks like: it leads
    from [start] to [w] by candidate steps, repeats no word, stays inside the
    visited set, and all its words but the first are in the lexicon [L]. *)
Record good_path (start : string) (L V : gset string) (w : string)
    (p : list string) : Prop := {
  gp_head : head p = Some start;
  gp_last : last p = Some w;
  gp_linked : linked edge p;
  gp_nodup : NoDup p;
  gp_visited : ∀ x, x ∈ p → x ∈ V;
  gp_lexicon : ∀ x, x ∈ tail p → x ∈ L
}.

(** Invariant of the [while] loop, for a call with lexicon [L]. *)
Record bfs_inv (start end_ : string) (L : gset string) (st : bfs_state)
    : Prop := {
  inv_start : start ∈ visited st;
  inv_end : end_ ∉ visited st;
  inv_sub : visited st ⊆ L ∪ {[start]};
  inv_nodup : NoDup (queue st).*1;
  inv_queue : ∀ w, w ∈ (queue st).*1 → w ∈ visited st;
  inv_paths : ∀ w p, (w, p) ∈ queue st → good_path start L (visited st) w p
}.

(** What a non-empty result looks like. *)
Record good_result (start end_ : string) (L : gset string) (r : list string)
    : Prop := {
  gr_head : head r = Some start;
  gr_last : last r = Some end_;
  gr_linked : linked edge r;
  gr_nodup : NoDup r;
  gr_lexicon : ∀ x, x ∈ tail r → x ∈ L
}.

(** [walk start end_ D x n]: [x] is reached from [start] by a sequence of [n]
    words, each a candidate of the one before and a member of [D], none of
    them the target. *)
Inductive walk (start end_ : string) (D : gset string) : string → nat → Prop :=
  | walk_start : walk start end_ D start 1
  | walk_step x y n :
      walk start end_ D x n → edge x y → y ∈ D → y ≠ end_ →
      walk start end_ D y (S n).

(** Breadth-first order of the queue [q1 ++ q2] with visited set [V]: the
    paths stored in [q1] have [k] words and those in [q2] have [k + 1];
    a visited word is still queued or has been expanded; every word
    reachable by fewer than [k] words has been expanded; a word queued in
    [q2] is not reachable by [k] words or fewer. *)
Record level_inv (start end_ : string) (D : gset string) (k : nat)
    (q1 q2 : list (string * list string)) (V : gset string) : Prop := {
  lv_start : start ∈ V;
  lv_near : ∀ e, e ∈ q1 → length e.2 = k;
  lv_far : ∀ e, e ∈ q2 → length e.2 = S k;
  lv_seen : ∀ x, x ∈ V → explored end_ D V x ∨ x ∈ (q1 ++ q2).*1;
  lv_done : ∀ x n, walk start end_ D x n → n < k → explored end_ D V x;
  lv_deep : ∀ x n, x ∈ q2.*1 → walk start end_ D x n → k < n
}.

(** [pth] is a transformation sequence from [start] to [end_] through the
    lexicon [L], for the notion of step [R]: consecutive words are related by
    [R] and every word after the first belongs to [L]. *)
Record transformation (R : string → string → Prop) (L : gset string)
    (start end_ : string) (pth : list string) : Prop := {
  tr_head : head pth = Some start;
  tr_last : last pth = Some end_;
  tr_linked : linked R pth;
  tr_lexicon : ∀ x, x ∈ tail pth → x ∈ L
}.

(** A word made of the letters a-z only. *)
Definition lowercase (w : string) : Prop :=
  ∀ i a, String.get i w = Some a → a ∈ alphabet.

(** ** Facts about strings *)

Section strings.
Implicit Types (w y : string) (a b c : ascii) (i j : nat).

Lemma new_word_of_0 a w c : new_word_of (String a w) 0 c = String c w.
Proof. reflexivity. Qed.

Lemma new_word_of_S a w i c :
  new_word_of (String a w) (S i) c = String a (new_word_of w i c).
Proof. reflexivity. Qed.

Lemma get_is_Some i w : i < String.length w → is_Some (String.get i w).
Proof.
  revert i. induction w as [|a w IH]; intros i Hi; simpl in *; [lia|].
  destruct i; [by eexists|]. apply IH. lia.
Qed.

Lemma get_Some_lt i w a : String.get i w = Some a → i < String.length w.
Proof.
  revert i. induction w as [|a' w IH]; intros i Hi; simpl in *; [done|].
  destruct i; [lia|]. apply IH in Hi. lia.
Qed.

Lemma zip_diff_count_refl w : zip_diff_count w w = 0.
Proof.
  induction w as [|a w IH]; simpl; [done|].
  rewrite IH. by destruct (decide (a ≠ a)).
Qed.

Lemma zip_diff_count_0 w y :
  String.length w = String.length y → zip_diff_count w y = 0 → w = y.
Proof.
  revert y. induction w as [|a w IH]; intros [|b y] Hlen Hz;
    simplify_eq/=; [done|].
  destruct (decide (a ≠ b)) as [|Hab]; [lia|].
  apply dec_stable in Hab as ->. f_equal. apply IH; lia.
Qed.

Lemma new_word_of_length i w a c :
  String.get i w = Some a →
  String.length (new_word_of w i c) = String.length w.
Proof.
  revert i. induction w as [|a' w IH]; intros i Hi; [done|].
  destruct i as [|i]; [done|].
  rewrite new_word_of_S. simpl. f_equal. by apply IH.
Qed.

Lemma new_word_of_get i w a c :
  String.get i w = Some a → String.get i (new_word_of w i c) = Some c.
Proof.
  revert i. induction w as [|a' w IH]; intros i Hi; [done|].
  destruct i as [|i]; [done|].
  rewrite new_word_of_S. simpl. by apply IH.
Qed.

Lemma new_word_of_diff i w a c :
  String.get i w = Some a → c ≠ a →
  zip_diff_count w (new_word_of w i c) = 1.
Proof.
  revert i. induction w as [|a' w IH]; intros i Hi Hc; [done|].
  destruct i as [|i].
  - rewrite new_word_of_0. simpl in *. simplify_eq.
    rewrite zip_diff_count_refl. by destruct (decide (a ≠ c)).
  - rewrite new_word_of_S. simpl in *.
    rewrite (IH i) by done. by destruct (decide (a' ≠ a')).
Qed.

Lemma is_one_letter_different_spec w y :
  is_one_letter_different w y = true ↔ adjacent w y.
Proof.
  unfold is_one_letter_different, adjacent.
  destruct (decide (String.length w ≠ String.length y)) as [Hne|Heq].
  - split; [done|]. by intros [? _].
  - apply dec_stable in Heq. rewrite bool_decide_eq_true.
    split; [done|]. by intros [_ ?].
Qed.

(** Adjacent words: the second is the first with one position overwritten. *)
Lemma adjacent_new_word_of w y :
  adjacent w y →
  ∃ i a b, String.get i w = Some a ∧ String.get i y = Some b ∧ a ≠ b ∧
           y = new_word_of w i b.
Proof.
  intros [Hlen Hd]. revert y Hlen Hd.
  induction w as [|a w IH]; intros [|b y] Hlen Hd; simplify_eq/=.
  destruct (decide (a ≠ b)) as [Hab|Hab].
  - exists 0, a, b. rewrite new_word_of_0. split_and!; try done.
    f_equal. symmetry. apply zip_diff_count_0; [done|lia].
  - apply dec_stable in Hab as ->.
    destruct (IH y) as (i & a' & b' & ? & ? & ? & ->); [done|lia|].
    exists (S i), a', b'. by rewrite new_word_of_S.
Qed.

Lemma edge_adjacent w y : edge w y → adjacent w y.
Proof.
  intros (i & c & ci & Hi & _ & Hc & ->). split.
  - symmetry. by eapply new_word_of_length.
  - by eapply new_word_of_diff.
Qed.

Lemma edge_length w y : edge w y → String.length y = String.length w.
Proof. intros [? _]%edge_adjacent. done. Qed.

Lemma new_word_of_get_ne i j w a c :
  String.get i w = Some a → i ≠ j →
  String.get j (new_word_of w i c) = String.get j w.
Proof.
  revert i j. induction w as [|a' w IH]; intros i j Hi Hij; [done|].
  destruct i as [|i].
  - rewrite new_word_of_0. by destruct j.
  - rewrite new_word_of_S. destruct j as [|j]; [done|].
    simpl. apply IH; [done|lia].
Qed.

Lemma lowercase_step_edge w y : lowercase_step w y ↔ edge w y.
Proof.
  split.
  - intros [Hadj%is_one_letter_different_spec Hlow].
    destruct (adjacent_new_word_of _ _ Hadj) as (i & a & b & Ha & Hb & Hab & Hy).
    exists i, b, a. split_and!; eauto.
  - intros Hedge. split.
    { apply is_one_letter_different_spec. by apply edge_adjacent. }
    destruct Hedge as (i & c & ci & Hi & Hc & Hne & ->).
    intros j a b Hja Hjb Hab.
    destruct (decide (i = j)) as [->|Hij].
    + erewrite new_word_of_get in Hjb by done. by simplify_eq.
    + erewrite new_word_of_get_ne in Hjb by done. congruence.
Qed.
End strings.

(** ** Loops *)

Section loops.
Context {A S : Type}.
Implicit Types (xs pre suf : list A) (s : S) (f : A → S → flow S).

(** Invariant rule for [for_each]: [P] is indexed by the elements already
    iterated over, [Q] holds of every early exit. *)
Lemma for_each_inv (P : list A → S → Prop) (Q : completion → Prop) xs f :
  (∀ pre x suf s, xs = pre ++ x :: suf → P pre s →
     match f x s with
     | Next s' => P (pre ++ [x]) s'
     | Done c => Q c
     end) →
  ∀ s, P [] s →
  match for_each xs f s with
  | Next s' => P xs s'
  | Done c => Q c
  end.
Proof.
  intros Hstep.
  assert (∀ suf pre s, xs = pre ++ suf → P pre s →
    match for_each suf f s with
    | Next s' => P xs s'
    | Done c => Q c
    end) as Hgen.
  { induction suf as [|x suf IH]; intros pre s Hxs HP; simpl.
    - by rewrite Hxs, app_nil_r.
    - specialize (Hstep pre x suf s Hxs HP).
      destruct (f x s) as [s'|c]; [|done].
      apply (IH (pre ++ [x])); [|done]. by rewrite <-app_assoc. }
  intros s HP. by apply (Hgen xs []).
Qed.
End loops.

Section expand.
Context (end_ : string) (dictionary : gset string).
Context (w : string) (path : list string).
Implicit Types (st : bfs_state) (i : nat) (c : ascii).

Lemma expanded_refl st : expanded end_ dictionary w path st st [].
Proof.
  split; simpl.
  - by rewrite app_nil_r.
  - set_solver.
  - constructor.
  - set_solver.
Qed.

Lemma tried_mono V V' i c :
  V ⊆ V' → tried end_ dictionary V w i c → tried end_ dictionary V' w i c.
Proof. intros HV Ht ci Hi Hc. destruct (Ht ci Hi Hc). set_solver. Qed.

Lemma explored_mono V V' x :
  V ⊆ V' → explored end_ dictionary V x → explored end_ dictionary V' x.
Proof. intros HV He y Hy. destruct (He y Hy). set_solver. Qed.

(** One iteration of the innermost loop. *)
Lemma body_spec st0 st news i c ci :
  String.get i w = Some ci → c ∈ alphabet →
  expanded end_ dictionary w path st0 st news →
  match body end_ dictionary w path i c st with
  | Next st' =>
      (∃ news', expanded end_ dictionary w path st0 st' news') ∧
      visited st ⊆ visited st' ∧
      tried end_ dictionary (visited st') w i c
  | Done r => r = Returned (path ++ [end_]) ∧ edge w end_
  end.
Proof.
  intros Hi Hc [Hq Hv Hnd Hnews]. unfold body. rewrite Hi.
  destruct (decide (c = ci)) as [->|Hne].
  { split_and!; [by exists news| done |]. intros ci' ??. congruence. }
  assert (edge w (new_word_of w i c)) as Hedge by (by exists i, c, ci).
  simpl. destruct (decide (new_word_of w i c = end_)) as [<-|Hend]; [done|].
  destruct (decide _) as [[HD Hvis]|Hno]; simpl.
  - split_and!.
    + exists (news ++ [new_word_of w i c]). split; simpl.
      * rewrite Hq. unfold entries_of. by rewrite fmap_app, app_assoc.
      * rewrite Hv, list_to_set_app_L. set_solver.
      * apply NoDup_app. split_and!; [done| |apply NoDup_singleton].
        intros y Hy ->%list_elem_of_singleton. apply Hvis.
        rewrite Hv. set_solver.
      * intros y [Hy| ->%list_elem_of_singleton]%elem_of_app; [by apply Hnews|].
        split_and!; try done. rewrite Hv in Hvis. set_solver.
    + set_solver.
    + intros ???. split; [done|]. set_solver.
  - split_and!; [by exists news|done|].
    intros ???. split; [done|]. intros ?.
    destruct (decide (new_word_of w i c ∈ visited st)); [done|].
    destruct Hno. done.
Qed.

(** The loop over the alphabet at position [i]. *)
Lemma letters_spec st0 st i ci :
  String.get i w = Some ci →
  (∃ news, expanded end_ dictionary w path st0 st news) →
  match for_each alphabet (body end_ dictionary w path i) st with
  | Next st' =>
      (∃ news', expanded end_ dictionary w path st0 st' news') ∧
      visited st ⊆ visited st' ∧
      ∀ c, c ∈ alphabet → tried end_ dictionary (visited st') w i c
  | Done r => r = Returned (path ++ [end_]) ∧ edge w end_
  end.
Proof.
  intros Hi Hexp.
  apply (for_each_inv
    (λ pre st', (∃ news', expanded end_ dictionary w path st0 st' news') ∧
                visited st ⊆ visited st' ∧
                ∀ c, c ∈ pre → tried end_ dictionary (visited st') w i c)
    (λ r, r = Returned (path ++ [end_]) ∧ edge w end_)).
  - intros pre c suf st1 Hxs ([news Hnews] & Hsub & Htried).
    assert (c ∈ alphabet) as Hc by (rewrite Hxs; set_solver).
    pose proof (body_spec st0 st1 news i c ci Hi Hc Hnews) as Hb.
    destruct (body _ _ _ _ _ _ _) as [st2|r]; [|done].
    destruct Hb as (Hexp2 & Hsub2 & Ht2). split_and!; [done|set_solver|].
    intros c' [Hc'| ->%list_elem_of_singleton]%elem_of_app; [|done].
    eapply tried_mono; [done|]. by apply Htried.
  - split_and!; [done|done|]. intros c Hc. by apply elem_of_nil in Hc.
Qed.

(** The two nested loops: either the target is a candidate of [w] and the
    call returns, or every candidate of [w] has been looked at and the new
    ones were enqueued. No [IndexError] can escape. *)
Lemma expand_spec st :
  match expand end_ dictionary w path st with
  | Next st' =>
      (∃ news, expanded end_ dictionary w path st st' news) ∧
      explored end_ dictionary (visited st') w
  | Done r => r = Returned (path ++ [end_]) ∧ edge w end_
  end.
Proof.
  unfold expand.
  pose proof (for_each_inv
    (λ pre st', (∃ news', expanded end_ dictionary w path st st' news') ∧
                ∀ i c, i ∈ pre → c ∈ alphabet →
                       tried end_ dictionary (visited st') w i c)
    (λ r, r = Returned (path ++ [end_]) ∧ edge w end_)
    (seq 0 (String.length w))
    (λ i, for_each alphabet (body end_ dictionary w path i))) as Hloop.
  opose proof* (Hloop _ st) as Hres.
  - intros pre i suf st1 Hxs (Hexp & Htried). cbv beta.
    assert (i ∈ seq 0 (String.length w)) as Hi by (rewrite Hxs; set_solver).
    apply elem_of_seq in Hi as [_ Hi]. simpl in Hi.
    destruct (get_is_Some i w Hi) as [ci Hci].
    pose proof (letters_spec st st1 i ci Hci Hexp) as Hl.
    destruct (for_each alphabet _ st1) as [st2|r]; [|done].
    destruct Hl as (Hexp2 & Hsub & Ht). split; [done|].
    intros i' c [Hi'| ->%list_elem_of_singleton]%elem_of_app Hc.
    + eapply tried_mono; [done|]. by apply Htried.
    + by apply Ht.
  - split; [exists []; apply expanded_refl|]. intros i c Hi. by apply elem_of_nil in Hi.
  - destruct (for_each _ _ st) as [st'|r]; [|done].
    destruct Hres as [Hexp Htried]. split; [done|].
    intros y (i & c & ci & Hi & Hc & Hne & ->).
    apply (Htried i c) with ci; [|done|done|done].
    apply elem_of_seq. split; [lia|]. simpl. by eapply get_Some_lt.
Qed.
End expand.

(** ** Paths *)

Section linked.
Context (R : string → string → Prop).
Implicit Types (l p : list string) (x y : string).

Lemma linked_cons x l :
  linked R (x :: l) ↔ (∀ y, head l = Some y → R x y) ∧ linked R l.
Proof.
  destruct l as [|y l]; simpl.
  - split; [|done]. intros _. split; [|done]. by intros ? [=].
  - split.
    + intros [? ?]. split; [|done]. by intros ? [= <-].
    + intros [HR ?]. split; [|done]. by apply HR.
Qed.

Lemma linked_snoc p y :
  linked R (p ++ [y]) ↔ linked R p ∧ (∀ x, last p = Some x → R x y).
Proof.
  induction p as [|x p IH].
  - simpl. split; [|done]. intros _. split; [done|]. by intros ? [=].
  - change ((x :: p) ++ [y]) with (x :: (p ++ [y])).
    rewrite !linked_cons, IH. destruct p as [|x' p].
    + simpl. split.
      * intros [HR _]. split_and!; [by intros ? [=]|done|].
        intros ? [= <-]. by apply HR.
      * intros [_ HR]. split_and!; [|done|by intros ? [=]].
        intros ? [= <-]. by apply HR.
    + rewrite last_cons_cons. simpl. naive_solver.
Qed.

Lemma linked_impl (R' : string → string → Prop) l :
  (∀ x y, R x y → R' x y) → linked R l → linked R' l.
Proof.
  intros HR. induction l as [|x [|y l] IH]; simpl; [done..|].
  intros [? ?]. split; [by apply HR|by apply IH].
Qed.
End linked.

(** ** The invariant of the search loop *)

Section invariant.
Context (start end_ : string) (L : gset string).
Implicit Types (st : bfs_state) (w x y : string) (p r : list string).

Lemma good_path_mono V V' w p :
  V ⊆ V' → good_path start L V w p → good_path start L V' w p.
Proof. intros HV [? ? ? ? ? ?]. split; try done. set_solver. Qed.

Lemma entries_of_fst p news : (entries_of p news).*1 = news.
Proof.
  unfold entries_of. rewrite <-list_fmap_compose.
  induction news as [|y news IH]; simpl; [done|]. by f_equal.
Qed.

Lemma elem_of_entries_of w p' p news :
  (w, p') ∈ entries_of p news ↔ w ∈ news ∧ p' = p ++ [w].
Proof. unfold entries_of. rewrite list_elem_of_fmap. naive_solver. Qed.

Lemma length_entries_of p news : length (entries_of p news) = length news.
Proof. unfold entries_of. by rewrite length_fmap. Qed.

Lemma bfs_inv_initial : start ≠ end_ → bfs_inv start end_ L (initial_state start).
Proof.
  intros Hne. split; simpl.
  - set_solver.
  - set_solver.
  - set_solver.
  - apply NoDup_singleton.
  - set_solver.
  - intros w p [= -> ->]%list_elem_of_singleton. split; simpl; try done.
    + apply NoDup_singleton.
    + set_solver.
    + set_solver.
Qed.

(** Extending a stored path by a word found from its end. *)
Lemma good_path_snoc V w p y :
  good_path start L V w p → start ∈ V → edge w y → y ∈ L ∪ {[start]} → y ∉ V →
  good_path start L (V ∪ {[y]}) y (p ++ [y]).
Proof.
  intros [Hh Hl Hlk Hnd Hv HL] Hs He HD HV.
  destruct p as [|x p]; [done|]. simpl in Hh. simplify_eq. split.
  - done.
  - by rewrite last_snoc.
  - apply linked_snoc. split; [done|]. intros x. rewrite Hl. by intros [= <-].
  - apply NoDup_app. split_and!; [done| |apply NoDup_singleton].
    intros x Hx ->%list_elem_of_singleton. by apply HV, Hv.
  - intros x [Hx| ->%list_elem_of_singleton]%elem_of_app; set_solver.
  - simpl. intros x [Hx| ->%list_elem_of_singleton]%elem_of_app; [by apply HL|].
    set_solver.
Qed.

(** One iteration of the [while] loop that does not return keeps the
    invariant. *)
Lemma bfs_inv_step st w p rest st' news :
  bfs_inv start end_ L st → queue st = (w, p) :: rest →
  expanded end_ (L ∪ {[start]}) w p (BfsState rest (visited st)) st' news →
  bfs_inv start end_ L st'.
Proof.
  intros [Hs He Hsub Hnd Hq Hp] Hst [Hq' Hv' Hnd' Hnews]. simpl in *.
  rewrite Hst in *. simpl in *. apply NoDup_cons in Hnd as [Hw Hnd].
  assert (visited st ⊆ visited st') as Hmono by set_solver.
  assert (good_path start L (visited st) w p) as Hwp by (apply Hp; left).
  split.
  - set_solver.
  - rewrite Hv'. intros [?|Hin%elem_of_list_to_set]%elem_of_union; [done|].
    by destruct (Hnews _ Hin) as (_ & _ & _ & ?).
  - rewrite Hv'. apply union_subseteq. split; [done|].
    intros y Hy%elem_of_list_to_set. by destruct (Hnews _ Hy) as (_ & ? & _).
  - rewrite Hq', fmap_app, entries_of_fst. apply NoDup_app. split_and!; [done| |done].
    intros y Hy Hy'. destruct (Hnews _ Hy') as (_ & _ & Hnv & _).
    apply Hnv, Hq. by right.
  - rewrite Hq', fmap_app, entries_of_fst, Hv'.
    intros y [Hy|Hy]%elem_of_app; [|set_solver].
    apply elem_of_union_l, Hq. by right.
  - rewrite Hq'. intros y p' [Hy|[Hy ->]%elem_of_entries_of]%elem_of_app.
    + eapply good_path_mono; [done|]. apply Hp. by right.
    + destruct (Hnews _ Hy) as (Hedge & HD & Hnv & _).
      eapply good_path_mono; [|by apply (good_path_snoc (visited st) w)].
      rewrite Hv'. apply union_mono_l. set_solver.
Qed.

(** The path returned when the target is found among the candidates. *)
Lemma good_result_found st w p :
  bfs_inv start end_ L st → (w, p) ∈ queue st → end_ ∈ L → edge w end_ →
  good_result start end_ L (p ++ [end_]).
Proof.
  intros [Hs He Hsub Hnd Hq Hp] Hin HL Hedge.
  destruct (Hp _ _ Hin) as [Hh Hl Hlk Hnd' Hv HL'].
  destruct p as [|x p]; [done|]. simpl in Hh. simplify_eq. split.
  - done.
  - by rewrite last_snoc.
  - apply linked_snoc. split; [done|]. intros x. rewrite Hl. by intros [= <-].
  - apply NoDup_app. split_and!; [done| |apply NoDup_singleton].
    intros x Hx ->%list_elem_of_singleton. by apply He, Hv.
  - simpl. intros x [Hx| ->%list_elem_of_singleton]%elem_of_app; [by apply HL'|done].
Qed.

(** Whatever the loop returns is the empty list or a good result, and no
    [IndexError] escapes. *)
Lemma bfs_good fuel st c :
  end_ ∈ L → bfs_inv start end_ L st →
  bfs fuel end_ (L ∪ {[start]}) st = Some c →
  ∃ r, c = Returned r ∧ (r = [] ∨ good_result start end_ L r).
Proof.
  intros HL. revert st. induction fuel as [|fuel IH]; intros st Hinv; [done|].
  simpl. destruct (queue st) as [|[w p] rest] eqn:Hq.
  { intros [= <-]. eauto. }
  pose proof (expand_spec end_ (L ∪ {[start]}) w p (BfsState rest (visited st)))
    as Hexp.
  destruct (expand _ _ _ _ _) as [st'|c'].
  - destruct Hexp as [[news Hnews] _]. apply IH. by eapply bfs_inv_step.
  - destruct Hexp as [-> Hedge]. intros [= <-]. eexists. split; [done|]. right.
    eapply good_result_found; [done| |done|done]. rewrite Hq. left.
Qed.

(** The loop ends: every iteration consumes a queue entry, and every entry
    added is a word of the dictionary not visited before. *)
Lemma bfs_terminates fuel st :
  bfs_inv start end_ L st →
  size ((L ∪ {[start]}) ∖ visited st) + length (queue st) < fuel →
  is_Some (bfs fuel end_ (L ∪ {[start]}) st).
Proof.
  revert st. induction fuel as [|fuel IH]; intros st Hinv Hfuel; [lia|].
  simpl. destruct (queue st) as [|[w p] rest] eqn:Hq; [done|].
  pose proof (expand_spec end_ (L ∪ {[start]}) w p (BfsState rest (visited st)))
    as Hexp.
  destruct (expand _ _ _ _ _) as [st'|c']; [|done].
  destruct Hexp as [[news Hnews] _]. apply IH; [by eapply bfs_inv_step|].
  destruct Hnews as [Hq' Hv' Hnd Hnews]. simpl in *.
  rewrite Hq', length_app, length_entries_of.
  assert ((L ∪ {[start]}) ∖ visited st
          = (L ∪ {[start]}) ∖ visited st' ∪ list_to_set news) as Hsplit.
  { assert (list_to_set news ⊆ (L ∪ {[start]}) ∖ visited st) as Hsub.
    { intros y Hy%elem_of_list_to_set.
      destruct (Hnews _ Hy) as (_ & ? & ? & _). set_solver. }
    rewrite Hv'. apply set_eq. intros y.
    destruct (decide (y ∈ (list_to_set news : gset string))); set_solver. }
  rewrite Hsplit, size_union, size_list_to_set in Hfuel by (done || set_solver).
  lia.
Qed.

Lemma bfs_fuel_mono fuel fuel' dictionary st c :
  fuel ≤ fuel' →
  bfs fuel end_ dictionary st = Some c → bfs fuel' end_ dictionary st = Some c.
Proof.
  revert fuel' st. induction fuel as [|fuel IH]; intros fuel' st Hle; [done|].
  destruct fuel' as [|fuel']; [lia|]. simpl.
  destruct (queue st) as [|[w p] rest]; [done|].
  destruct (expand _ _ _ _ _); [|done]. apply IH. lia.
Qed.
End invariant.

(** ** Breadth-first order and minimality *)

Section minimality.
Context (start end_ : string) (D : gset string).
Implicit Types (st : bfs_state) (w x y : string) (p r : list string).
Implicit Types (V : gset string).

Lemma walk_pos x n : walk start end_ D x n → 0 < n.
Proof. destruct 1; lia. Qed.

(** A word reachable by [n ≤ k] words is visited once every word reachable
    by fewer than [k] words has been expanded. *)
Lemma walk_visited k V x n :
  start ∈ V →
  (∀ x n, walk start end_ D x n → n < k → explored end_ D V x) →
  walk start end_ D x n → n ≤ k → x ∈ V.
Proof.
  intros Hs Hdone Hw Hn. destruct Hw as [|x' y n Hw He HD Hend]; [done|].
  destruct (Hdone x' n Hw ltac:(lia) y He) as [_ HV]. by apply HV.
Qed.

(** When the paths of [k] words are used up, those of [k + 1] words are
    next. *)
Lemma level_shift k (q2 : list (string * list string)) V :
  level_inv start end_ D k [] q2 V → level_inv start end_ D (S k) q2 [] V.
Proof.
  intros [Hs Hnear Hfar Hseen Hdone Hdeep]. split.
  - done.
  - done.
  - intros e He. by apply elem_of_nil in He.
  - intros x Hx. rewrite app_nil_r. by apply Hseen.
  - intros x n Hw Hn. destruct (decide (n < k)) as [|Hk]; [by eapply Hdone|].
    assert (x ∈ V) as Hx by (eapply walk_visited; [done..|lia]).
    destruct (Hseen x Hx) as [|Hq]; [done|]. simpl in Hq.
    specialize (Hdeep x n Hq Hw). lia.
  - intros x n Hx. by apply elem_of_nil in Hx.
Qed.

(** An iteration of the [while] loop that does not return. *)
Lemma level_step k w p (q1 q2 : list (string * list string)) V st' news :
  level_inv start end_ D k ((w, p) :: q1) q2 V →
  expanded end_ D w p (BfsState (q1 ++ q2) V) st' news →
  explored end_ D (visited st') w →
  level_inv start end_ D k q1 (q2 ++ entries_of p news) (visited st').
Proof.
  intros [Hs Hnear Hfar Hseen Hdone Hdeep] [Hq' Hv' Hnd Hnews] Hw.
  simpl in *.
  assert (V ⊆ visited st') as Hmono by set_solver.
  assert (length p = k) as Hp by (apply (Hnear (w, p)); left).
  split.
  - set_solver.
  - intros e He. apply Hnear. by right.
  - intros [y p'] [He|[Hy ->]%elem_of_entries_of]%elem_of_app; [by apply Hfar|].
    simpl. rewrite length_app. simpl. lia.
  - intros x. rewrite Hv'. intros [Hx|Hx%elem_of_list_to_set]%elem_of_union.
    + destruct (Hseen x Hx) as [He|Hq].
      * left. rewrite <-Hv'. by eapply explored_mono.
      * simpl in Hq. apply elem_of_cons in Hq as [->|Hq].
        { left. by rewrite <-Hv'. }
        right. rewrite app_assoc, fmap_app. set_solver.
    + right. rewrite !fmap_app, entries_of_fst. set_solver.
  - intros x n Hwalk Hn. eapply explored_mono; [done|]. by eapply Hdone.
  - intros x n. rewrite fmap_app, entries_of_fst.
    intros [Hx|Hx]%elem_of_app Hwalk; [by eapply Hdeep|].
    destruct (Hnews x Hx) as (_ & _ & Hnv & _).
    destruct (decide (k < n)) as [|Hk]; [done|]. destruct Hnv.
    eapply walk_visited; [done..|lia].
Qed.

(** A result of the loop is at most one word longer than any walk to a
    word that has the target among its candidates. *)
Lemma bfs_minimal fuel k (q1 q2 : list (string * list string)) st r :
  queue st = q1 ++ q2 →
  level_inv start end_ D k q1 q2 (visited st) →
  bfs fuel end_ D st = Some (Returned r) → r ≠ [] →
  ∀ x n, walk start end_ D x n → edge x end_ → length r ≤ S n.
Proof.
  revert k q1 q2 st.
  induction fuel as [|fuel IH]; intros k q1 q2 st Hq Hlv Hr Hne; [done|].
  assert (∃ k' w p q1' q2', queue st = (w, p) :: q1' ++ q2' ∧
            level_inv start end_ D k' ((w, p) :: q1') q2' (visited st))
    as (k' & w & p & q1' & q2' & Hq' & Hlv').
  { destruct q1 as [|[w p] q1].
    - destruct q2 as [|[w p] q2].
      + simpl in Hr. rewrite Hq in Hr. simpl in Hr. congruence.
      + exists (S k), w, p, q2, []. split; [by rewrite app_nil_r|].
        by apply level_shift.
    - by exists k, w, p, q1, q2. }
  clear k q1 q2 Hq Hlv. simpl in Hr. rewrite Hq' in Hr.
  pose proof (expand_spec end_ D w p (BfsState (q1' ++ q2') (visited st)))
    as Hexp.
  destruct (expand _ _ _ _ _) as [st'|c'].
  - destruct Hexp as [[news Hnews] Hw].
    apply (IH k' q1' (q2' ++ entries_of p news) st'); [|by eapply level_step|done..].
    destruct Hnews as [-> _ _ _]. simpl. by rewrite app_assoc.
  - destruct Hexp as [-> _]. simplify_eq.
    intros x n Hwalk Hedge. rewrite length_app. simpl.
    assert (length p = k') as Hp by (apply (lv_near _ _ _ _ _ _ _ Hlv' (w, p)); left).
    destruct (decide (n < k')) as [Hn|]; [|lia].
    destruct (lv_done _ _ _ _ _ _ _ Hlv' x n Hwalk Hn end_ Hedge) as [? _]. done.
Qed.

Lemma level_inv_initial :
  level_inv start end_ D 1 [(start, [start])] [] {[start]}.
Proof.
  split.
  - set_solver.
  - by intros e ->%list_elem_of_singleton.
  - intros e He. by apply elem_of_nil in He.
  - intros x ->%elem_of_singleton. right. simpl. left.
  - intros x n Hw%walk_pos Hn. lia.
  - intros x n Hx. by apply elem_of_nil in Hx.
Qed.

(** A transformation sequence made of candidate steps contains a walk to
    a word that has the target among its candidates. *)
Lemma transformation_walk L pth x n :
  L ⊆ D → walk start end_ D x n → x ≠ end_ →
  transformation edge L x end_ pth →
  ∃ x' n', walk start end_ D x' n' ∧ edge x' end_ ∧ S n' + 1 ≤ n + length pth.
Proof.
  intros HL. revert x n.
  induction pth as [|x0 pth IH]; intros x n Hw Hx [Hh Hl Hlk Hlex]; [done|].
  simpl in Hh. simplify_eq. destruct pth as [|y pth].
  { simpl in Hl. congruence. }
  destruct Hlk as [Hxy Hlk].
  assert (y ∈ L) as Hy by (apply Hlex; left).
  destruct (decide (y = end_)) as [->|Hyend].
  { exists x, n. split_and!; [done..|]. simpl. lia. }
  destruct (IH y (S n)) as (x' & n' & ? & ? & ?).
  - apply walk_step with x; [done..|set_solver|done].
  - done.
  - split; [done| |done|].
    + by rewrite last_cons_cons in Hl.
    + intros z Hz. apply Hlex. simpl. by right.
  - exists x', n'. split_and!; [done..|]. simpl in *. lia.
Qed.
End minimality.

(** ** The whole call *)

Section word_ladder.
Implicit Types (start : string) (L : gset string) (r : list string).

Lemma word_ladder_fuel_search fuel start end_ L :
  start ≠ end_ → end_ ∈ L →
  word_ladder_fuel fuel start end_ L
  = bfs fuel end_ (L ∪ {[start]}) (initial_state start).
Proof.
  intros Hne HL. unfold word_ladder_fuel.
  destruct (decide (start = end_)); [done|].
  destruct (decide (end_ ∉ L)); done.
Qed.

(** With [size L + 2] units of fuel the loop runs to its end. *)
Lemma bfs_enough_fuel fuel start end_ L :
  start ≠ end_ → size L + 2 ≤ fuel →
  is_Some (bfs fuel end_ (L ∪ {[start]}) (initial_state start)).
Proof.
  intros Hne Hfuel. apply bfs_terminates; [by apply bfs_inv_initial|].
  simpl. assert (size ((L ∪ {[start]}) ∖ {[start]}) ≤ size L); [|lia].
  apply subseteq_size. set_solver.
Qed.

(** The call always returns a list: it neither runs out of fuel nor
    raises. *)
Lemma word_ladder_returns start end_ L :
  ∃ r, word_ladder start end_ L = Some (Returned r).
Proof.
  unfold word_ladder, word_ladder_fuel.
  destruct (decide (start = end_)); [by eexists|].
  destruct (decide (end_ ∉ L)) as [|HL%dec_stable]; [by eexists|]. simpl.
  destruct (bfs_enough_fuel (size L + 2) start end_ L) as [c Hc]; [done..|].
  rewrite Hc.
  destruct (bfs_good start end_ L _ _ c HL (bfs_inv_initial _ _ _ n) Hc)
    as (r & -> & _).
  by eexists.
Qed.

(** More or less fuel does not change the result. *)
Lemma word_ladder_fuel_agree fuel start end_ L c :
  word_ladder_fuel fuel start end_ L = Some c →
  word_ladder start end_ L = Some c.
Proof.
  unfold word_ladder, word_ladder_fuel.
  destruct (decide (start = end_)); [done|].
  destruct (decide (end_ ∉ L)); [done|]. simpl. intros Hc.
  destruct (bfs_enough_fuel (size L + 2) start end_ L) as [c' Hc']; [done..|].
  rewrite Hc'. f_equal.
  apply (bfs_fuel_mono _ _ (fuel `max` (size L + 2))) in Hc; [|lia].
  apply (bfs_fuel_mono _ _ (fuel `max` (size L + 2))) in Hc'; [|lia].
  congruence.
Qed.

Lemma good_result_same start L : good_result start start L [start].
Proof.
  split; simpl; try done.
  - apply NoDup_singleton.
  - intros x Hx. by apply elem_of_nil in Hx.
Qed.

Lemma word_ladder_good start end_ L r :
  word_ladder start end_ L = Some (Returned r) → r ≠ [] →
  good_result start end_ L r.
Proof.
  unfold word_ladder, word_ladder_fuel.
  destruct (decide (start = end_)) as [<-|Hne].
  { intros [= <-] _. apply good_result_same. }
  destruct (decide (end_ ∉ L)) as [|HL%dec_stable]; [by intros [= <-]|].
  simpl. intros Hr Hnil.
  destruct (bfs_good start end_ L _ _ _ HL (bfs_inv_initial _ _ _ Hne) Hr)
    as (r' & [= <-] & [->|Hgood]); done.
Qed.

Lemma linked_lookup (R : string → string → Prop) (l : list string) i x y :
  linked R l → l !! i = Some x → l !! S i = Some y → R x y.
Proof.
  revert i. induction l as [|x0 l IH]; intros i Hl Hx Hy; [done|].
  apply linked_cons in Hl as [Hhd Hl]. destruct i as [|i]; simpl in *.
  - simplify_eq. apply Hhd. by destruct l.
  - by eapply IH.
Qed.

(** Words linked by candidate steps all have the same length. *)
Lemma linked_edge_length (l : list string) x y :
  linked edge l → head l = Some x → last l = Some y →
  String.length x = String.length y.
Proof.
  revert x. induction l as [|x0 l IH]; intros x Hl Hx Hy; [done|].
  simpl in Hx. simplify_eq. apply linked_cons in Hl as [Hhd Hl].
  destruct l as [|x1 l]; [by simplify_eq/=|].
  rewrite last_cons_cons in Hy.
  rewrite <-(IH x1) by done. symmetry. apply edge_length. by apply Hhd.
Qed.
(** A non-empty result is no longer than any transformation sequence made of
    candidate steps. *)
Lemma word_ladder_shortest start end_ L r (pth : list string) :
  word_ladder start end_ L = Some (Returned r) → r ≠ [] →
  transformation edge L start end_ pth →
  length r ≤ length pth.
Proof.
  unfold word_ladder, word_ladder_fuel. intros Hr Hnil Hpth.
  destruct (decide (start = end_)) as [<-|Hne].
  { simplify_eq. destruct Hpth as [Hh _ _ _]. destruct pth; [done|]. simpl. lia. }
  destruct (decide (end_ ∉ L)) as [|_]; [by simplify_eq|]. simpl in Hr.
  destruct (transformation_walk start end_ (L ∪ {[start]}) L pth start 1)
    as (x & n & Hwalk & Hedge & Hlen); [set_solver|constructor|done..|].
  pose proof (bfs_minimal start end_ (L ∪ {[start]}) _ 1 [(start, [start])] []
    (initial_state start) r eq_refl (level_inv_initial _ _ _) Hr Hnil
    x n Hwalk Hedge).
  lia.
Qed.
End word_ladder.

(** ** Step-by-step view of the loop *)

Section steps.
Context (end_ : string) (dictionary : gset string).
Implicit Types (cfg : config) (st : bfs_state) (ws : list string).

(** The body either leaves the locals alone or appends one entry for a
    word of the dictionary that it also adds to [visited]. *)
Lemma body_Next w path i c st st' :
  body end_ dictionary w path i c st = Next st' →
  st' = st ∨
  ∃ y, y ∈ dictionary ∧ (y ∉ visited st) ∧
       st' = BfsState (queue st ++ [(y, path ++ [y])]) (visited st ∪ {[y]}).
Proof.
  unfold body. destruct (String.get i w) as [ci|]; [|done].
  destruct (decide (c = ci)); [by left; simplify_eq|]. simpl.
  destruct (decide (new_word_of w i c = end_)); [done|].
  destruct (decide _) as [[? ?]|]; intros [= <-]; [|by left].
  right. by eexists.
Qed.

Lemma step_visited cfg cfg' :
  step end_ dictionary cfg cfg' →
  visited (locals cfg) ⊆ visited (locals cfg').
Proof.
  intros [ws w path rest V|ws w path i c st st' Hb]; simpl; [done|].
  apply body_Next in Hb as [->|(y & _ & _ & ->)]; set_solver.
Qed.

Lemma steps_visited cfg cfg' :
  rtc (step end_ dictionary) cfg cfg' →
  visited (locals cfg) ⊆ visited (locals cfg').
Proof.
  induction 1 as [|cfg cfg1 cfg2 H1 _ IH]; [done|].
  apply step_visited in H1. set_solver.
Qed.

Lemma step_enqueued cfg cfg' :
  step end_ dictionary cfg cfg' →
  (∀ x, x ∈ visited (locals cfg) ↔ x ∈ enqueued cfg) →
  (∀ x, x ∈ visited (locals cfg') ↔ x ∈ enqueued cfg').
Proof.
  unfold enqueued.
  intros [ws w path rest V|ws w path i c st st' Hb] Hinv x; simpl in *.
  - rewrite Hinv. set_solver.
  - apply body_Next in Hb as [->|(y & _ & _ & ->)]; [done|]. simpl.
    rewrite fmap_app. simpl. specialize (Hinv x). set_solver.
Qed.

Lemma step_subset cfg cfg' :
  step end_ dictionary cfg cfg' →
  visited (locals cfg) ⊆ dictionary → visited (locals cfg') ⊆ dictionary.
Proof.
  intros [ws w path rest V|ws w path i c st st' Hb]; simpl; [done|].
  apply body_Next in Hb as [->|(y & ? & _ & ->)]; set_solver.
Qed.

(** The functional loops are sequences of steps. *)
Lemma for_each_steps {A} (xs : list A) (f : A → bfs_state → flow bfs_state)
    ws st st' :
  (∀ x s s', f x s = Next s' →
             rtc (step end_ dictionary) (Config ws s) (Config ws s')) →
  for_each xs f st = Next st' →
  rtc (step end_ dictionary) (Config ws st) (Config ws st').
Proof.
  intros Hf. revert st. induction xs as [|x xs IH]; intros st; simpl.
  - by intros [= <-].
  - destruct (f x st) as [s1|] eqn:Hx; [|done]. intros Hxs.
    etrans; [by eapply Hf|by apply IH].
Qed.

Lemma expand_steps w path ws st st' :
  expand end_ dictionary w path st = Next st' →
  rtc (step end_ dictionary) (Config ws st) (Config ws st').
Proof.
  apply for_each_steps. intros i s s'. apply for_each_steps.
  intros c s1 s2 Hb. apply rtc_once. by eapply step_body.
Qed.

(** One iteration of the [while] loop that does not return. *)
Lemma iteration_steps w path rest V ws st' :
  expand end_ dictionary w path (BfsState rest V) = Next st' →
  rtc (step end_ dictionary)
    (Config ws (BfsState ((w, path) :: rest) V)) (Config (ws ++ [w]) st').
Proof.
  intros Hexp. eapply rtc_l; [apply step_popleft|]. by eapply expand_steps.
Qed.

(** A run of the [while] loop is a sequence of steps up to the configuration
    in which the loop is left: the queue is empty there, or the expansion of
    its first entry returns. *)
Lemma bfs_steps fuel st ws c :
  bfs fuel end_ dictionary st = Some c →
  ∃ cfg, rtc (step end_ dictionary) (Config ws st) cfg ∧
    match queue (locals cfg) with
    | [] => c = Returned []
    | (w, path) :: rest =>
        expand end_ dictionary w path (BfsState rest (visited (locals cfg)))
        = Done c
    end.
Proof.
  revert st ws. induction fuel as [|fuel IH]; intros [q V] ws; [done|].
  simpl. destruct q as [|[w path] rest] eqn:Hq.
  { intros [= <-]. exists (Config ws (BfsState [] V)). by split. }
  destruct (expand _ _ _ _ _) as [st'|c'] eqn:Hexp.
  - intros (cfg & Hsteps & Hcfg)%(IH st' (ws ++ [w])).
    exists cfg. split; [|done]. etrans; [by apply iteration_steps|done].
  - intros [= <-]. exists (Config ws (BfsState ((w, path) :: rest) V)).
    by split.
Qed.
End steps.

(** ** The call on set objects *)

Section heap.
Implicit Types (h : heap) (l : nat) (start : string) (L : gset string).

(** What the call does to the heap: nothing, or one new object holding
    the lexicon with [start] added; and it computes what the call on set
    values computes. *)
Lemma word_ladder_ref_spec fuel start end_ l h L :
  h !! l = Some L →
  word_ladder_ref fuel start end_ l h
  = c ← word_ladder_fuel fuel start end_ L;
    Some (c, if decide (start = end_ ∨ end_ ∉ L) then h
             else <[fresh (dom h) := L ∪ {[start]}]> h).
Proof.
  intros Hl. unfold word_ladder_ref, word_ladder_fuel.
  rewrite Hl. cbv zeta. rewrite alter_insert_eq, lookup_insert_eq.
  repeat case_decide; try reflexivity; try done; try (exfalso; tauto).
Qed.

Lemma fresh_not_live h l L : h !! l = Some L → fresh (dom h) ≠ l.
Proof.
  intros Hl <-. apply (is_fresh (dom h)). apply elem_of_dom. by eexists.
Qed.
End heap.

(** ** Properties of [word_ladder] *)

(** Exhibits the position and letter of a candidate step between two
    literal words. *)
Ltac candidate i c ci :=
  apply lowercase_step_edge; exists i, c, ci;
  split_and!; [reflexivity|by vm_compute; set_solver|done|reflexivity].

(** C2 (trivial success): when start and target coincide the call returns
    the single-element list, whatever the lexicon and with any amount of
    fuel, so before the lexicon is even consulted. *)
Theorem word_ladder_same (t : string) (L : gset string) :
  word_ladder t t L = Some (Returned [t]) ∧
  ∀ fuel, word_ladder_fuel fuel t t L = Some (Returned [t]).
Proof.
  assert (∀ fuel, word_ladder_fuel fuel t t L = Some (Returned [t])) as H.
  { intros fuel. unfold word_ladder_fuel. by rewrite decide_True. }
  split; [apply H|done].
Qed.

(** C3 (unreachable-target fast path): when the target differs from the
    start and is not in the lexicon the call returns the empty list; it does
    so with no fuel at all, that is, without a single test of the loop
    condition, hence without expanding anything. *)
Theorem word_ladder_target_absent (start end_ : string) (L : gset string) :
  start ≠ end_ → end_ ∉ L →
  word_ladder start end_ L = Some (Returned []) ∧
  word_ladder_fuel 0 start end_ L = Some (Returned []).
Proof.
  intros Hne HL.
  assert (∀ fuel, word_ladder_fuel fuel start end_ L = Some (Returned [])) as H.
  { intros fuel. unfold word_ladder_fuel.
    rewrite decide_False by done. by rewrite decide_True. }
  split; apply H.
Qed.

Lemma word_ladder_target_absent_witness :
  word_ladder "hit" "cog" {[ "hot"; "dot"; "dog"; "lot"; "log" ]}
    = Some (Returned []) ∧
  word_ladder_fuel 0 "hit" "cog" {[ "hot"; "dot"; "dog"; "lot"; "log" ]}
    = Some (Returned []).
Proof.
  apply (word_ladder_target_absent "hit" "cog"); [done|].
  vm_compute. discriminate.
Defined.

(** C6 (edge validity): in a non-empty result any two consecutive words have
    the same length and differ in exactly one position. *)
Theorem word_ladder_adjacent (start end_ : string) (L : gset string)
    (r : list string) :
  word_ladder start end_ L = Some (Returned r) → r ≠ [] →
  ∀ i x y, r !! i = Some x → r !! S i = Some y →
    String.length x = String.length y ∧ zip_diff_count x y = 1.
Proof.
  intros Hr Hnil i x y Hx Hy.
  destruct (word_ladder_good _ _ _ _ Hr Hnil) as [_ _ Hlk _ _].
  apply edge_adjacent. by eapply linked_lookup.
Qed.

Lemma word_ladder_adjacent_witness :
  String.length "dot" = String.length "dog" ∧ zip_diff_count "dot" "dog" = 1.
Proof.
  apply (word_ladder_adjacent "hit" "cog" example_lexicon
           ["hit"; "hot"; "dot"; "dog"; "cog"] ltac:(vm_compute; reflexivity)
           ltac:(discriminate) 2 "dot" "dog"); reflexivity.
Defined.

(** C7 (lexicon membership): every word of a non-empty result after the
    first belongs to the lexicon the caller passed. *)
Theorem word_ladder_in_lexicon (start end_ : string) (L : gset string)
    (r : list string) :
  word_ladder start end_ L = Some (Returned r) → r ≠ [] →
  ∀ i x, 0 < i → r !! i = Some x → x ∈ L.
Proof.
  intros Hr Hnil i x Hi Hx.
  destruct (word_ladder_good _ _ _ _ Hr Hnil) as [_ _ _ _ Hlex].
  apply Hlex. destruct r as [|x0 r]; [done|]. destruct i as [|i]; [lia|].
  simpl in *. by eapply list_elem_of_lookup_2.
Qed.

Lemma word_ladder_in_lexicon_witness : "dog" ∈ example_lexicon.
Proof.
  apply (word_ladder_in_lexicon "hit" "cog" example_lexicon
           ["hit"; "hot"; "dot"; "dog"; "cog"] ltac:(vm_compute; reflexivity)
           ltac:(discriminate) 3 "dog" ltac:(lia) ltac:(reflexivity)).
Defined.

(** C10 (endpoints, no repeats): a non-empty result starts with the start
    word, ends with the target and contains no word twice. *)
Theorem word_ladder_endpoints (start end_ : string) (L : gset string)
    (r : list string) :
  word_ladder start end_ L = Some (Returned r) → r ≠ [] →
  head r = Some start ∧ last r = Some end_ ∧ NoDup r.
Proof.
  intros Hr Hnil. by destruct (word_ladder_good _ _ _ _ Hr Hnil).
Qed.

Lemma word_ladder_endpoints_witness :
  head ["hit"; "hot"; "dot"; "dog"; "cog"] = Some "hit" ∧
  last ["hit"; "hot"; "dot"; "dog"; "cog"] = Some "cog" ∧
  NoDup ["hit"; "hot"; "dot"; "dog"; "cog"].
Proof.
  apply (word_ladder_endpoints "hit" "cog" example_lexicon
           ["hit"; "hot"; "dot"; "dog"; "cog"] ltac:(vm_compute; reflexivity)
           ltac:(discriminate)).
Defined.

(** C8 (length mismatch): when start and target have different lengths the
    call ends and returns the empty list, without an [IndexError]; a word as
    long as the start word only yields candidates of that length, none of
    which is the target. *)
Theorem word_ladder_length_mismatch (start end_ : string) (L : gset string) :
  start ≠ end_ → String.length start ≠ String.length end_ →
  word_ladder start end_ L = Some (Returned []) ∧
  ∀ w i ci c, String.length w = String.length start →
    String.get i w = Some ci →
    String.length (new_word_of w i c) = String.length start ∧
    new_word_of w i c ≠ end_.
Proof.
  intros Hne Hlen. split.
  - destruct (word_ladder_returns start end_ L) as [r Hr]. rewrite Hr.
    destruct r as [|x r]; [done|]. exfalso. apply Hlen.
    destruct (word_ladder_good _ _ _ _ Hr ltac:(done)) as [Hh Hl Hlk _ _].
    by eapply linked_edge_length.
  - intros w i ci c Hw Hi.
    assert (String.length (new_word_of w i c) = String.length start) as Hnew.
    { rewrite <-Hw. by eapply new_word_of_length. }
    split; [done|]. intros Heq. rewrite Heq in Hnew. done.
Qed.

Lemma word_ladder_length_mismatch_witness :
  word_ladder "hit" "cogs" {[ "hot"; "cogs" ]} = Some (Returned []) ∧
  ∀ w i ci c, String.length w = String.length "hit" →
    String.get i w = Some ci →
    String.length (new_word_of w i c) = String.length "hit" ∧
    new_word_of w i c ≠ "cogs".
Proof.
  apply (word_ladder_length_mismatch "hit" "cogs"); [done|].
  simpl. lia.
Defined.

(** C1 as stated (no result is longer than the shortest sequence of
    single-character edits through the lexicon) fails when the lexicon has
    words outside a-z: the search only ever writes the letters a-z, so it
    misses the four-word route through "aB" and "bB" and returns five words. *)
Lemma word_ladder_misses_uppercase_route :
  word_ladder "aa" "bb" detour_lexicon
    = Some (Returned ["aa"; "ac"; "cc"; "cb"; "bb"]) ∧
  transformation adjacent detour_lexicon "aa" "bb" ["aa"; "aB"; "bB"; "bb"] ∧
  length ["aa"; "aB"; "bB"; "bb"] < length ["aa"; "ac"; "cc"; "cb"; "bb"].
Proof.
  split_and!.
  - vm_compute. reflexivity.
  - split.
    + reflexivity.
    + reflexivity.
    + repeat split.
    + intros x Hx. simpl in Hx. unfold detour_lexicon. set_solver.
  - simpl. lia.
Qed.

(** C1 (minimality): a non-empty result is no longer than any transformation
    sequence from start to target through the lexicon whose every step
    replaces one character by a different letter among a-z. *)
Theorem word_ladder_minimal (start end_ : string) (L : gset string)
    (r pth : list string) :
  word_ladder start end_ L = Some (Returned r) → r ≠ [] →
  transformation lowercase_step L start end_ pth →
  length r ≤ length pth.
Proof.
  intros Hr Hnil [Hh Hl Hlk Hlex].
  apply (word_ladder_shortest start end_ L); [done..|].
  split; [done..| |done].
  eapply linked_impl; [|done]. intros x y. by apply lowercase_step_edge.
Qed.

Lemma word_ladder_minimal_witness :
  length ["hit"; "hot"; "dot"; "dog"; "cog"]
  ≤ length ["hit"; "hot"; "lot"; "log"; "cog"].
Proof.
  apply (word_ladder_minimal "hit" "cog" example_lexicon).
  - vm_compute. reflexivity.
  - discriminate.
  - split.
    + reflexivity.
    + reflexivity.
    + simpl. split_and!; [candidate 1 "o"%char "i"%char
                         |candidate 0 "l"%char "h"%char
                         |candidate 2 "g"%char "t"%char
                         |candidate 0 "c"%char "l"%char
                         |exact I].
    + intros x Hx. simpl in Hx. unfold example_lexicon. set_solver.
Defined.

(** For a lexicon of lower-case words the steps of any transformation
    sequence write letters a-z, so the result is then no longer than any
    sequence of single-character edits through the lexicon. *)
Corollary word_ladder_shortest_lowercase (start end_ : string)
    (L : gset string) (r pth : list string) :
  (∀ w, w ∈ L → lowercase w) →
  word_ladder start end_ L = Some (Returned r) → r ≠ [] →
  transformation adjacent L start end_ pth →
  length r ≤ length pth.
Proof.
  intros Hlow Hr Hnil [Hh Hl Hlk Hlex].
  apply (word_ladder_shortest start end_ L); [done..|]. split; [done..| |done].
  clear Hh Hl. induction pth as [|x [|y pth] IH]; [done..|].
  destruct Hlk as [Hxy Hlk]. split.
  - apply lowercase_step_edge. split; [by apply is_one_letter_different_spec|].
    intros i a b _ Hb _. apply (Hlow y ltac:(apply Hlex; left) i b Hb).
  - apply IH; [done|]. intros z Hz. apply Hlex. by right.
Qed.

(** C4 as stated (adjacent words over any alphabet) fails when the target
    has a character outside a-z at the position where it differs. *)
Lemma word_ladder_misses_uppercase_target :
  "cat" ≠ "Cat" ∧
  is_one_letter_different "cat" "Cat" = true ∧
  "Cat" ∈ ({[ "Cat" ]} : gset string) ∧
  word_ladder "cat" "Cat" {[ "Cat" ]} = Some (Returned []).
Proof. split_and!; [done|reflexivity|set_solver|vm_compute; reflexivity]. Qed.

(** C4 (adjacency): when the target is in the lexicon and differs from the
    start in exactly one position, where it has one of the letters a-z, the
    call returns the two-word sequence start, target. *)
Theorem word_ladder_one_step (start end_ : string) (L : gset string) :
  lowercase_step start end_ → end_ ∈ L →
  word_ladder start end_ L = Some (Returned [start; end_]).
Proof.
  intros Hstep%lowercase_step_edge HL.
  assert (start ≠ end_) as Hne.
  { intros ->. apply edge_adjacent in Hstep as [_ Hd].
    rewrite zip_diff_count_refl in Hd. done. }
  unfold word_ladder. rewrite word_ladder_fuel_search by done.
  replace (size L + 2) with (S (size L + 1)) by lia. simpl.
  pose proof (expand_spec end_ (L ∪ {[start]}) start [start]
                (BfsState [] {[start]})) as Hexp.
  destruct (expand _ _ _ _ _) as [st'|c].
  - destruct Hexp as [_ Hexp]. by destruct (Hexp end_ Hstep).
  - by destruct Hexp as [-> _].
Qed.

Lemma word_ladder_one_step_witness :
  word_ladder "cat" "bat" {[ "bat" ]} = Some (Returned ["cat"; "bat"]).
Proof.
  apply (word_ladder_one_step "cat" "bat").
  - candidate 0 "b"%char "c"%char.
  - set_solver.
Defined.

(** C5 (no caller mutation): a call on a live set object returns, with the
    result of the call on its contents, and leaves every object that existed
    before the call as it was, the caller's lexicon in particular; the only
    change to the heap, if any, is one new object holding the copy of the
    lexicon to which the start word was added. *)
Theorem word_ladder_ref_frame (start end_ : string) (dictionary : nat)
    (h : heap) (L : gset string) :
  h !! dictionary = Some L →
  ∃ c h',
    word_ladder_ref (size L + 2) start end_ dictionary h = Some (c, h') ∧
    word_ladder start end_ L = Some c ∧
    h' !! dictionary = Some L ∧
    (∀ l, l ∈ dom h → h' !! l = h !! l) ∧
    (h' = h ∨ ∃ l, (l ∉ dom h) ∧ h' = <[l := L ∪ {[start]}]> h).
Proof.
  intros Hl. destruct (word_ladder_returns start end_ L) as [r Hr].
  rewrite (word_ladder_ref_spec _ _ _ _ _ _ Hl).
  unfold word_ladder in *. rewrite Hr. simpl.
  eexists _, _. split; [reflexivity|]. split; [done|].
  case_decide as Hfast; [by eauto|].
  pose proof (is_fresh (dom h)) as Hfresh. split_and!.
  - rewrite lookup_insert_ne; [done|]. by eapply fresh_not_live.
  - intros l Hdom. rewrite lookup_insert_ne; [done|]. by intros <-.
  - right. by eexists.
Qed.

Lemma word_ladder_ref_frame_witness :
  ∃ c h',
    word_ladder_ref (size ({[ "bat" ]} : gset string) + 2) "cat" "bat" 7
      {[ 7 := {[ "bat" ]} ]} = Some (c, h') ∧
    word_ladder "cat" "bat" {[ "bat" ]} = Some c ∧
    h' !! 7 = Some ({[ "bat" ]} : gset string) ∧
    (∀ l, l ∈ dom ({[ 7 := {[ "bat" ]} ]} : heap) →
          h' !! l = ({[ 7 := {[ "bat" ]} ]} : heap) !! l) ∧
    (h' = {[ 7 := {[ "bat" ]} ]} ∨
     ∃ l, (l ∉ dom ({[ 7 := {[ "bat" ]} ]} : heap)) ∧
          h' = <[l := {[ "bat" ]} ∪ {[ "cat" ]}]> {[ 7 := {[ "bat" ]} ]}).
Proof.
  apply (word_ladder_ref_frame "cat" "bat" 7 {[ 7 := {[ "bat" ]} ]} {[ "bat" ]}).
  vm_compute. reflexivity.
Defined.

(** C9 (visited set): at every point of the loop reachable from its initial
    configuration, the visited set holds exactly the words put on the queue
    so far, is included in the lexicon extended with the start word, and so
    has at most [size L + 1] elements; and it is included in the visited set
    of every configuration reached later. *)
Theorem visited_invariant (start end_ : string) (L : gset string)
    (cfg cfg' : config) :
  rtc (step end_ (L ∪ {[start]})) (initial_config start) cfg →
  rtc (step end_ (L ∪ {[start]})) cfg cfg' →
  (∀ x, x ∈ visited (locals cfg) ↔ x ∈ enqueued cfg) ∧
  visited (locals cfg) ⊆ L ∪ {[start]} ∧
  size (visited (locals cfg)) ≤ size L + 1 ∧
  visited (locals cfg) ⊆ visited (locals cfg').
Proof.
  intros Hreach Hlater.
  assert ((∀ x, x ∈ visited (locals cfg) ↔ x ∈ enqueued cfg) ∧
          visited (locals cfg) ⊆ L ∪ {[start]}) as [Henq Hsub].
  { clear Hlater cfg'. revert cfg Hreach. apply rtc_ind_r.
    - unfold enqueued. simpl. set_solver.
    - intros cfg1 cfg2 _ Hstep [Henq Hsub].
      split; [by eapply step_enqueued|by eapply step_subset]. }
  split_and!; [done|done| |by eapply steps_visited].
  etrans; [by apply subseteq_size|].
  rewrite size_union_alt, <-Nat.add_le_mono_l.
  etrans; [apply subseteq_size, subseteq_difference_l; reflexivity|].
  by rewrite size_singleton.
Qed.

Lemma visited_invariant_witness :
  (∀ x, x ∈ visited (locals after_popleft) ↔ x ∈ enqueued after_popleft) ∧
  visited (locals after_popleft) ⊆ {[ "bat" ]} ∪ {[ "cat" ]} ∧
  size (visited (locals after_popleft)) ≤ size ({[ "bat" ]} : gset string) + 1 ∧
  visited (locals after_popleft) ⊆ visited (locals after_body).
Proof.
  apply (visited_invariant "cat" "rat" {[ "bat" ]} after_popleft after_body).
  - apply rtc_once. apply (step_popleft _ _ [] "cat" ["cat"] [] {[ "cat" ]}).
  - apply rtc_once.
    apply (step_body _ _ ["cat"] "cat" ["cat"] 0 "b"%char).
    reflexivity.
Defined.

(** ** Further properties of [is_one_letter_different] *)

Section one_letter.
Implicit Types (w y : string) (a b c : ascii) (i j : nat).

Lemma zip_diff_count_sym w y : zip_diff_count w y = zip_diff_count y w.
Proof.
  revert y. induction w as [|a w IH]; intros [|b y]; simpl; [done..|].
  rewrite (IH y). by destruct (decide (a ≠ b)), (decide (b ≠ a)); simplify_eq.
Qed.

(** Words that agree everywhere have no differing position. *)
Lemma zip_diff_count_agree w y :
  (∀ j, String.get j w = String.get j y) → zip_diff_count w y = 0.
Proof.
  revert y. induction w as [|a w IH]; intros [|b y] Hget; simpl; [done..|].
  pose proof (Hget 0) as H0. simpl in H0. simplify_eq.
  rewrite (IH y); [by destruct (decide (b ≠ b))|].
  intros j. apply (Hget (S j)).
Qed.

(** Words of the same length that agree everywhere but at position [i]
    differ in exactly one position. *)
Lemma zip_diff_count_one w y i a b :
  String.get i w = Some a → String.get i y = Some b → a ≠ b →
  (∀ j, j ≠ i → String.get j w = String.get j y) →
  zip_diff_count w y = 1.
Proof.
  revert y i. induction w as [|a' w IH]; intros [|b' y] i Hw Hy Hab Hget;
    simpl in *; [done..|].
  destruct i as [|i]; simplify_eq.
  - rewrite decide_True by done. rewrite zip_diff_count_agree; [done|].
    intros j. apply (Hget (S j)). lia.
  - pose proof (Hget 0 ltac:(lia)) as H0. simpl in H0. simplify_eq.
    rewrite decide_False by (by intros ?). simpl.
    apply (IH y i); [done..|]. intros j Hj. apply (Hget (S j)). lia.
Qed.

Lemma get_None_ge i w : String.length w ≤ i → String.get i w = None.
Proof.
  revert i. induction w as [|a w IH]; intros i Hi; simpl in *; [done|].
  destruct i; [lia|]. apply IH. lia.
Qed.

Lemma length_agree w y i :
  (∀ j, j ≠ i → String.get j w = String.get j y) →
  is_Some (String.get i w) → is_Some (String.get i y) →
  String.length w = String.length y.
Proof.
  intros Hget Hw Hy.
  assert (∀ j, is_Some (String.get j w) ↔ is_Some (String.get j y)) as Hsome.
  { intros j. destruct (decide (j = i)) as [->|Hj]; [done|]. by rewrite Hget. }
  destruct (decide (String.length w < String.length y)) as [Hlt|Hge].
  { specialize (Hsome (String.length w)).
    rewrite (get_None_ge _ w) in Hsome by lia.
    destruct (proj2 Hsome) as [? ?]; [by apply get_is_Some|done]. }
  destruct (decide (String.length y < String.length w)) as [Hlt|Hge']; [|lia].
  specialize (Hsome (String.length y)).
  rewrite (get_None_ge _ y) in Hsome by lia.
  destruct (proj1 Hsome) as [? ?]; [by apply get_is_Some|done].
Qed.
End one_letter.

(** ** Exhaustion of the search *)

Section exhaustion.
Context (start end_ : string) (D : gset string).
Implicit Types (st : bfs_state) (x : string) (V : gset string).

(** With an empty queue the levels can be shifted at will. *)
Lemma level_shift_many k m V :
  level_inv start end_ D k [] [] V → level_inv start end_ D (k + m) [] [] V.
Proof.
  intros Hlv. induction m as [|m IH]; [by rewrite Nat.add_0_r|].
  rewrite Nat.add_succ_r. by apply level_shift.
Qed.

(** When the loop ends with the empty list, no word reachable from the start
    has the target among its candidates. *)
Lemma bfs_exhausted fuel k (q1 q2 : list (string * list string)) st :
  queue st = q1 ++ q2 →
  level_inv start end_ D k q1 q2 (visited st) →
  bfs fuel end_ D st = Some (Returned []) →
  ∀ x n, walk start end_ D x n → ¬ edge x end_.
Proof.
  revert k q1 q2 st.
  induction fuel as [|fuel IH]; intros k q1 q2 st Hq Hlv Hr; [done|].
  destruct (queue st) as [|[w p] rest] eqn:Hqueue.
  { symmetry in Hq. apply app_eq_nil in Hq as [-> ->].
    intros x n Hwalk Hedge.
    pose proof (level_shift_many k (S n) _ Hlv) as Hlv'.
    destruct (lv_done _ _ _ _ _ _ _ Hlv' x n Hwalk ltac:(lia) end_ Hedge).
    done. }
  assert (∃ k' q1' q2', rest = q1' ++ q2' ∧
            level_inv start end_ D k' ((w, p) :: q1') q2' (visited st))
    as (k' & q1' & q2' & -> & Hlv').
  { destruct q1 as [|e q1].
    - simpl in Hq. subst q2. exists (S k), rest, [].
      split; [by rewrite app_nil_r|]. by apply level_shift.
    - simpl in Hq. simplify_eq. by exists k, q1, q2. }
  clear k q1 q2 Hq Hlv. simpl in Hr. rewrite Hqueue in Hr.
  pose proof (expand_spec end_ D w p (BfsState (q1' ++ q2') (visited st)))
    as Hexp.
  destruct (expand _ _ _ _ _) as [st'|c'].
  - destruct Hexp as [[news Hnews] Hw].
    apply (IH k' q1' (q2' ++ entries_of p news) st'); [|by eapply level_step|done].
    destruct Hnews as [-> _ _ _]. simpl. by rewrite app_assoc.
  - destruct Hexp as [-> _]. simplify_eq. by destruct p.
Qed.
End exhaustion.

(** ** Agreement of dictionaries *)

Section agreement.
Context (end_ : string) (D D' : gset string) (n : nat).
Context (Hagree : ∀ y, String.length y = n → y ∈ D ↔ y ∈ D').
Implicit Types (st : bfs_state) (w : string).

Lemma for_each_ext {A S} (xs : list A) (f g : A → S → flow S) (s : S) :
  (∀ x s, x ∈ xs → f x s = g x s) → for_each xs f s = for_each xs g s.
Proof.
  revert s. induction xs as [|x xs IH]; intros s Hfg; [done|]. simpl.
  rewrite Hfg by left. destruct (g x s); [|done].
  apply IH. intros ???. apply Hfg. by right.
Qed.

Lemma body_agree w path i c st :
  String.length w = n →
  body end_ D w path i c st = body end_ D' w path i c st.
Proof.
  intros Hw. unfold body. destruct (String.get i w) as [ci|] eqn:Hi; [|done].
  destruct (decide (c = ci)); [done|]. simpl.
  destruct (decide (new_word_of w i c = end_)); [done|].
  assert (new_word_of w i c ∈ D ↔ new_word_of w i c ∈ D') as Hiff.
  { apply Hagree. rewrite <-Hw. by eapply new_word_of_length. }
  destruct (decide (new_word_of w i c ∈ D ∧ _)) as [[? ?]|Hno];
    destruct (decide (new_word_of w i c ∈ D' ∧ _)) as [[? ?]|Hno'];
    try done.
  - destruct Hno'. split; [by apply Hiff|done].
  - destruct Hno. split; [by apply Hiff|done].
Qed.

Lemma expand_agree w path st :
  String.length w = n →
  expand end_ D w path st = expand end_ D' w path st.
Proof.
  intros Hw. unfold expand. apply for_each_ext. intros i s _.
  apply for_each_ext. intros c s' _. by apply body_agree.
Qed.

Lemma bfs_agree fuel st :
  (∀ w, w ∈ (queue st).*1 → String.length w = n) →
  bfs fuel end_ D st = bfs fuel end_ D' st.
Proof.
  revert st. induction fuel as [|fuel IH]; intros st Hlen; [done|]. simpl.
  destruct (queue st) as [|[w p] rest] eqn:Hq; [done|].
  assert (String.length w = n) as Hw by (apply Hlen; left).
  rewrite <-expand_agree by done.
  pose proof (expand_spec end_ D w p (BfsState rest (visited st))) as Hexp.
  destruct (expand _ _ _ _ _) as [st'|c]; [|done].
  apply IH. destruct Hexp as [[news [Hq' _ _ Hnews]] _]. simpl in *.
  rewrite Hq', fmap_app, entries_of_fst.
  intros y [Hy|Hy]%elem_of_app.
  - apply Hlen. by right.
  - destruct (Hnews y Hy) as [Hedge%edge_length _]. congruence.
Qed.
End agreement.

(** ** Routes and results *)

Section routes.
Implicit Types (start : string) (L : gset string) (r pth : list string).

Lemma good_result_transformation start end_ L r :
  good_result start end_ L r → transformation edge L start end_ r.
Proof. intros [? ? ? ? ?]. by split. Qed.

Lemma transformation_mono (R : string → string → Prop) L (L' : gset string)
    start end_ pth :
  L ⊆ L' → transformation R L start end_ pth → transformation R L' start end_ pth.
Proof. intros HL [? ? ? ?]. split; [done..|]. set_solver. Qed.

Lemma transformation_lowercase L start end_ pth :
  transformation lowercase_step L start end_ pth ↔
  transformation edge L start end_ pth.
Proof.
  split; intros [? ? Hlk ?]; (split; [done..| |done]);
    (eapply linked_impl; [|done]); intros x y; by apply lowercase_step_edge.
Qed.

(** In a list with different first and last elements the last one is not
    the first. *)
Lemma last_in_tail (l : list string) a b :
  head l = Some a → last l = Some b → a ≠ b → b ∈ tail l.
Proof.
  destruct l as [|x l]; [done|]. simpl. intros [= ->] Hl Hab.
  destruct l as [|y l]; [simpl in Hl; congruence|].
  rewrite last_cons_cons in Hl. by eapply last_Some_elem_of.
Qed.

(** The empty list is only returned when no transformation sequence made of
    candidate steps exists. *)
Lemma word_ladder_nil_no_route start end_ L pth :
  word_ladder start end_ L = Some (Returned []) →
  ¬ transformation edge L start end_ pth.
Proof.
  unfold word_ladder, word_ladder_fuel. intros Hr Hpth.
  destruct (decide (start = end_)) as [|Hne]; [done|].
  destruct (decide (end_ ∉ L)) as [HL|_].
  { apply HL. destruct Hpth as [Hh Hl _ Hlex]. apply Hlex.
    by eapply last_in_tail. }
  simpl in Hr.
  destruct (transformation_walk start end_ (L ∪ {[start]}) L pth start 1)
    as (x & n & Hwalk & Hedge & _); [set_solver|constructor|done..|].
  by eapply (bfs_exhausted start end_ (L ∪ {[start]}) _ 1 [(start, [start])] []
            (initial_state start) eq_refl (level_inv_initial _ _ _) Hr x n).
Qed.

(** When a transformation sequence exists one is found, and it is not
    longer. *)
Lemma word_ladder_route_found start end_ L pth :
  transformation edge L start end_ pth →
  ∃ r, word_ladder start end_ L = Some (Returned r) ∧ r ≠ [] ∧
       length r ≤ length pth.
Proof.
  intros Hpth. destruct (word_ladder_returns start end_ L) as [r Hr].
  exists r. split; [done|].
  assert (r ≠ []) as Hnil.
  { intros ->. by eapply word_ladder_nil_no_route. }
  split; [done|]. by eapply word_ladder_shortest.
Qed.

Lemma word_ladder_fuel_mono fuel fuel' start end_ L c :
  fuel ≤ fuel' →
  word_ladder_fuel fuel start end_ L = Some c →
  word_ladder_fuel fuel' start end_ L = Some c.
Proof.
  intros Hle. unfold word_ladder_fuel.
  destruct (decide (start = end_)); [done|].
  destruct (decide (end_ ∉ L)); [done|]. simpl. by apply bfs_fuel_mono.
Qed.

(** Words linked by candidate steps have the length of the first. *)
Lemma linked_edge_lengths (l : list string) a x :
  linked edge l → head l = Some a → x ∈ l →
  String.length x = String.length a.
Proof.
  revert a. induction l as [|x0 l IH]; intros a Hl Ha Hx; [done|].
  simpl in Ha. simplify_eq. apply linked_cons in Hl as [Hhd Hl].
  apply elem_of_cons in Hx as [->|Hx]; [done|].
  destruct l as [|x1 l]; [by apply elem_of_nil in Hx|].
  rewrite (IH x1) by done. apply edge_length. by apply Hhd.
Qed.

Lemma word_ladder_mismatch_nil start end_ L :
  String.length start ≠ String.length end_ →
  word_ladder start end_ L = Some (Returned []).
Proof.
  intros Hlen. destruct (word_ladder_returns start end_ L) as [r Hr].
  rewrite Hr. destruct r as [|x r]; [done|]. exfalso. apply Hlen.
  destruct (word_ladder_good _ _ _ _ Hr ltac:(done)) as [Hh Hl Hlk _ _].
  by eapply linked_edge_length.
Qed.

(** Lexicons with the same words of the length of the start word, the start
    word aside, give the same result. *)
Lemma word_ladder_agree start end_ L (L' : gset string) :
  (∀ w, String.length w = String.length start → w ≠ start →
        w ∈ L ↔ w ∈ L') →
  word_ladder start end_ L = word_ladder start end_ L'.
Proof.
  intros Hagree.
  destruct (decide (String.length start = String.length end_)) as [Hlen|Hlen];
    [|by rewrite !word_ladder_mismatch_nil].
  destruct (word_ladder_returns start end_ L) as [r Hr]. rewrite Hr.
  symmetry. apply (word_ladder_fuel_agree (size L + 2)).
  revert Hr. unfold word_ladder, word_ladder_fuel.
  destruct (decide (start = end_)) as [|Hne]; [done|].
  assert (end_ ∈ L ↔ end_ ∈ L') as Hend by (apply Hagree; done).
  destruct (decide (end_ ∉ L)) as [HL|HL]; destruct (decide (end_ ∉ L')) as [HL'|HL'];
    try done.
  - destruct HL. apply Hend. by apply dec_stable.
  - destruct HL'. apply Hend. by apply dec_stable.
  - simpl. intros <-. symmetry.
    apply (bfs_agree _ _ _ (String.length start)).
    + intros y Hy. destruct (decide (y = start)) as [->|Hys]; [set_solver|].
      specialize (Hagree y Hy Hys). set_solver.
    + simpl. by intros w ->%list_elem_of_singleton.
Qed.
End routes.

(** ** Further properties of the search *)

(** X1 (termination): with at least [size L + 2] units of fuel the call
    returns a list, the one the call with the default fuel returns; the
    [while] loop stops and no [IndexError] escapes. *)
Theorem word_ladder_terminates (fuel : nat) (start end_ : string)
    (L : gset string) :
  size L + 2 ≤ fuel →
  ∃ r, word_ladder_fuel fuel start end_ L = Some (Returned r) ∧
       word_ladder start end_ L = Some (Returned r).
Proof.
  intros Hfuel. destruct (word_ladder_returns start end_ L) as [r Hr].
  exists r. split; [|done]. by eapply word_ladder_fuel_mono.
Qed.

Lemma word_ladder_terminates_witness :
  ∃ r, word_ladder_fuel 100 "hit" "cog" example_lexicon = Some (Returned r) ∧
       word_ladder "hit" "cog" example_lexicon = Some (Returned r).
Proof.
  apply (word_ladder_terminates 100 "hit" "cog" example_lexicon).
  unfold example_lexicon. rewrite !size_union, !size_singleton by set_solver.
  lia.
Defined.

(** X2 (exhaustion): the call returns the empty list exactly when there is
    no transformation sequence from start to target through the lexicon
    whose steps each replace one character by a different letter a-z. *)
Theorem word_ladder_empty_iff (start end_ : string) (L : gset string) :
  word_ladder start end_ L = Some (Returned []) ↔
  ¬ ∃ pth, transformation lowercase_step L start end_ pth.
Proof.
  split.
  - intros Hr [pth Hpth%transformation_lowercase].
    by eapply word_ladder_nil_no_route.
  - intros Hno. destruct (word_ladder_returns start end_ L) as [r Hr].
    rewrite Hr. destruct r as [|x r]; [done|]. destruct Hno.
    exists (x :: r). apply transformation_lowercase, good_result_transformation.
    by apply word_ladder_good.
Qed.

(** X3 (result is a route): a non-empty result is itself a transformation
    sequence from start to target through the lexicon, each step of which
    replaces one character by a different letter a-z. *)
Theorem word_ladder_is_transformation (start end_ : string) (L : gset string)
    (r : list string) :
  word_ladder start end_ L = Some (Returned r) → r ≠ [] →
  transformation lowercase_step L start end_ r.
Proof.
  intros Hr Hnil.
  apply transformation_lowercase, good_result_transformation.
  by apply word_ladder_good.
Qed.

Lemma word_ladder_is_transformation_witness :
  transformation lowercase_step example_lexicon "hit" "cog"
    ["hit"; "hot"; "dot"; "dog"; "cog"].
Proof.
  apply (word_ladder_is_transformation "hit" "cog" example_lexicon).
  - vm_compute. reflexivity.
  - discriminate.
Defined.

(** X4 (symmetry): [is_one_letter_different] does not depend on the order of
    its arguments, and is false on a word and itself. *)
Theorem is_one_letter_different_sym (word1 word2 : string) :
  is_one_letter_different word1 word2 = is_one_letter_different word2 word1 ∧
  is_one_letter_different word1 word1 = false.
Proof.
  unfold is_one_letter_different. split.
  - rewrite (zip_diff_count_sym word1 word2).
    destruct (decide (String.length word1 ≠ String.length word2)),
             (decide (String.length word2 ≠ String.length word1));
      try done; congruence.
  - rewrite decide_False by (by intros ?).
    by rewrite zip_diff_count_refl.
Qed.

(** X5 (exactly one position): [is_one_letter_different] is true exactly
    when the two words have different characters at one position and are the
    same everywhere else, ends included. *)
Theorem is_one_letter_different_exactly_one (word1 word2 : string) :
  is_one_letter_different word1 word2 = true ↔
  ∃ i a b, String.get i word1 = Some a ∧ String.get i word2 = Some b ∧
           a ≠ b ∧
           ∀ j, j ≠ i → String.get j word1 = String.get j word2.
Proof.
  rewrite is_one_letter_different_spec. split.
  - intros Hadj.
    destruct (adjacent_new_word_of _ _ Hadj) as (i & a & b & Ha & Hb & Hab & Hy).
    exists i, a, b. split_and!; [done..|].
    intros j Hj. rewrite Hy. symmetry. by eapply new_word_of_get_ne.
  - intros (i & a & b & Ha & Hb & Hab & Hget). split.
    + by apply (length_agree _ _ i).
    + by eapply zip_diff_count_one.
Qed.

(** X7 (start word and lexicon): whether the start word belongs to the
    lexicon makes no difference to the result. *)
Theorem word_ladder_start_irrelevant (start end_ : string) (L : gset string) :
  word_ladder start end_ (L ∪ {[start]}) = word_ladder start end_ L ∧
  word_ladder start end_ (L ∖ {[start]}) = word_ladder start end_ L.
Proof.
  split; apply word_ladder_agree; intros w _ Hw; set_solver.
Qed.

(** X8 (words of other lengths): the words of the lexicon that do not have
    the length of the start word make no difference to the result. *)
Theorem word_ladder_other_lengths (start end_ : string) (L : gset string) :
  word_ladder start end_
    (filter (λ w, String.length w = String.length start) L)
  = word_ladder start end_ L.
Proof.
  apply word_ladder_agree. intros w Hw _. rewrite elem_of_filter. tauto.
Qed.

(** X9 (length bound): a result has at most one word more than the lexicon
    has words. *)
Theorem word_ladder_length_bound (start end_ : string) (L : gset string)
    (r : list string) :
  word_ladder start end_ L = Some (Returned r) → length r ≤ size L + 1.
Proof.
  intros Hr. destruct r as [|x r]; [simpl; lia|].
  destruct (word_ladder_good _ _ _ _ Hr ltac:(done)) as [_ _ _ Hnd Hlex].
  apply NoDup_cons in Hnd as [_ Hnd]. simpl in *.
  rewrite <-(size_list_to_set (C := gset string) r) by done.
  assert (size (list_to_set r : gset string) ≤ size L); [|lia].
  apply subseteq_size. intros y Hy%elem_of_list_to_set. by apply Hlex.
Qed.

Lemma word_ladder_length_bound_witness :
  length ["hit"; "hot"; "dot"; "dog"; "cog"] ≤ size example_lexicon + 1.
Proof.
  apply (word_ladder_length_bound "hit" "cog" example_lexicon).
  vm_compute. reflexivity.
Defined.

(** X10 (word lengths): every word of a result has the length of the start
    word. *)
Theorem word_ladder_word_lengths (start end_ : string) (L : gset string)
    (r : list string) (x : string) :
  word_ladder start end_ L = Some (Returned r) → x ∈ r →
  String.length x = String.length start.
Proof.
  intros Hr Hx. destruct r as [|x0 r]; [by apply elem_of_nil in Hx|].
  destruct (word_ladder_good _ _ _ _ Hr ltac:(done)) as [Hh _ Hlk _ _].
  by eapply linked_edge_lengths.
Qed.

Lemma word_ladder_word_lengths_witness :
  String.length "dog" = String.length "hit".
Proof.
  apply (word_ladder_word_lengths "hit" "cog" example_lexicon
           ["hit"; "hot"; "dot"; "dog"; "cog"] "dog").
  - vm_compute. reflexivity.
  - apply (bool_decide_unpack _). vm_compute. exact I.
Defined.

(** X11 (larger lexicon): when the call finds a sequence, the call with a
    lexicon that has more words also finds one, and not a longer one. *)
Theorem word_ladder_lexicon_mono (start end_ : string) (L L' : gset string)
    (r : list string) :
  L ⊆ L' → word_ladder start end_ L = Some (Returned r) → r ≠ [] →
  ∃ r', word_ladder start end_ L' = Some (Returned r') ∧ r' ≠ [] ∧
        length r' ≤ length r.
Proof.
  intros HL Hr Hnil. apply word_ladder_route_found.
  eapply transformation_mono; [done|].
  by apply good_result_transformation, word_ladder_good.
Qed.

Lemma word_ladder_lexicon_mono_witness :
  ∃ r', word_ladder "hit" "cog" (example_lexicon ∪ {[ "hog" ]})
          = Some (Returned r') ∧ r' ≠ [] ∧
        length r' ≤ length ["hit"; "hot"; "dot"; "dog"; "cog"].
Proof.
  apply (word_ladder_lexicon_mono "hit" "cog" example_lexicon).
  - apply union_subseteq_l.
  - vm_compute. reflexivity.
  - discriminate.
Defined.

(** X12 (one-word result): a one-word list is returned exactly when start
    and target are the same word, and the word is that one. *)
Theorem word_ladder_singleton_iff (start end_ : string) (L : gset string)
    (x : string) :
  word_ladder start end_ L = Some (Returned [x]) ↔ start = end_ ∧ x = start.
Proof.
  split.
  - intros Hr.
    destruct (word_ladder_good _ _ _ _ Hr ltac:(done)) as [Hh Hl _ _ _].
    simpl in *. by simplify_eq.
  - intros [<- ->]. unfold word_ladder, word_ladder_fuel.
    by rewrite decide_True.
Qed.

(** ** The verification loop *)

Section verification.
Implicit Types (r : list string).

(** On a list whose consecutive words are related by a relation that
    [is_one_letter_different] accepts, every flag is [true] and no subscript
    is out of range. *)
Lemma verification_linked (R : string → string → Prop) r :
  (∀ x y, R x y → is_one_letter_different x y = true) →
  linked R r →
  verification r = Some (replicate (length r - 1) true).
Proof.
  intros HR Hlk. unfold verification.
  destruct (decide (r = [])) as [->|Hnil]; [done|].
  apply mapM_Some_2, Forall2_same_length_lookup_2.
  { by rewrite length_seq, length_replicate. }
  intros i j b [-> Hi]%lookup_seq [-> _]%lookup_replicate. simpl.
  destruct (lookup_lt_is_Some_2 r i ltac:(lia)) as [x Hx].
  destruct (lookup_lt_is_Some_2 r (i + 1) ltac:(lia)) as [y Hy].
  rewrite Hx, Hy. f_equal. apply HR.
  eapply linked_lookup; [done..|]. by rewrite <-Nat.add_1_r.
Qed.
End verification.

(** X6 (verification loop): on the result of any call, the verification
    loop of [test_word_ladder] finds every step valid, one flag for each pair
    of consecutive words, and no subscript is out of range. *)
Theorem verification_all_valid (start end_ : string) (L : gset string)
    (r : list string) :
  word_ladder start end_ L = Some (Returned r) →
  verification r = Some (replicate (length r - 1) true).
Proof.
  intros Hr. destruct (decide (r = [])) as [->|Hnil]; [done|].
  apply (verification_linked edge).
  - intros x y Hxy. by apply is_one_letter_different_spec, edge_adjacent.
  - by destruct (word_ladder_good _ _ _ _ Hr Hnil).
Qed.

Lemma verification_all_valid_witness :
  verification ["hit"; "hot"; "dot"; "dog"; "cog"]
  = Some (replicate (length ["hit"; "hot"; "dot"; "dog"; "cog"] - 1) true).
Proof.
  apply (verification_all_valid "hit" "cog" example_lexicon).
  vm_compute. reflexivity.
Defined.

(** ** Distance between the ends *)

Section hamming.
Implicit Types (a b c : string) (l : list string).

Lemma zip_diff_count_triangle a b c :
  String.length a = String.length b → String.length b = String.length c →
  zip_diff_count a c ≤ zip_diff_count a b + zip_diff_count b c.
Proof.
  revert b c. induction a as [|x a IH]; intros [|y b] [|z c] Hab Hbc;
    simplify_eq/=; [lia|].
  specialize (IH b c ltac:(lia) ltac:(lia)).
  destruct (decide (x ≠ z)), (decide (x ≠ y)), (decide (y ≠ z)); try lia.
  exfalso. assert (x = y) by (by apply dec_stable).
  assert (y = z) by (by apply dec_stable). congruence.
Qed.

(** A chain of candidate steps has at least one step for each position in
    which its ends differ. *)
Lemma linked_edge_hamming l a b :
  linked edge l → head l = Some a → last l = Some b →
  zip_diff_count a b + 1 ≤ length l.
Proof.
  revert a. induction l as [|x0 l IH]; intros a Hl Ha Hb; [done|].
  simpl in Ha. simplify_eq. apply linked_cons in Hl as [Hhd Hl].
  destruct l as [|x1 l].
  { simpl in Hb. simplify_eq. rewrite zip_diff_count_refl. simpl. lia. }
  rewrite last_cons_cons in Hb.
  specialize (IH x1 Hl eq_refl Hb).
  destruct (edge_adjacent a x1 (Hhd x1 eq_refl)) as [Hlen Hd].
  pose proof (linked_edge_length (x1 :: l) x1 b Hl eq_refl Hb) as Hlen'.
  pose proof (zip_diff_count_triangle a x1 b Hlen Hlen').
  simpl in *. lia.
Qed.
End hamming.

(** X13 (distance): a non-empty result has at least one step for each
    position in which start and target differ. *)
Theorem word_ladder_hamming_bound (start end_ : string) (L : gset string)
    (r : list string) :
  word_ladder start end_ L = Some (Returned r) → r ≠ [] →
  zip_diff_count start end_ + 1 ≤ length r.
Proof.
  intros Hr Hnil.
  destruct (word_ladder_good _ _ _ _ Hr Hnil) as [Hh Hl Hlk _ _].
  by apply linked_edge_hamming.
Qed.

Lemma word_ladder_hamming_bound_witness :
  zip_diff_count "hit" "cog" + 1 ≤ length ["hit"; "hot"; "dot"; "dog"; "cog"].
Proof.
  apply (word_ladder_hamming_bound "hit" "cog" example_lexicon).
  - vm_compute. reflexivity.
  - discriminate.
Defined.

(** ** Words enter the queue once *)

Section once.
Context (end_ : string) (dictionary : gset string).
Implicit Types (cfg : config).

Lemma step_enqueued_nodup cfg cfg' :
  step end_ dictionary cfg cfg' →
  (∀ x, x ∈ visited (locals cfg) ↔ x ∈ enqueued cfg) →
  NoDup (enqueued cfg) → NoDup (enqueued cfg').
Proof.
  unfold enqueued.
  intros [ws w path rest V|ws w path i c st st' Hb] Hinv Hnd; simpl in *.
  - by rewrite <-app_assoc.
  - apply body_Next in Hb as [->|(y & _ & Hy & ->)]; [done|]. simpl.
    rewrite fmap_app, app_assoc. simpl.
    apply NoDup_app. split_and!; [done| |apply NoDup_singleton].
    intros x Hx ->%list_elem_of_singleton. by apply Hy, Hinv.
Qed.
End once.

(** X14 (enqueued once): at every point of the loop reachable from its
    initial configuration no word has been put on the queue twice, and at
    most [size L + 1] words have been put on it, hence taken off it. *)
Theorem enqueued_once (start end_ : string) (L : gset string) (cfg : config) :
  rtc (step end_ (L ∪ {[start]})) (initial_config start) cfg →
  NoDup (enqueued cfg) ∧
  length (enqueued cfg) ≤ size L + 1 ∧
  length (dequeued cfg) ≤ size L + 1.
Proof.
  intros Hreach.
  assert ((∀ x, x ∈ visited (locals cfg) ↔ x ∈ enqueued cfg) ∧
          visited (locals cfg) ⊆ L ∪ {[start]} ∧
          NoDup (enqueued cfg)) as (Henq & Hsub & Hnd).
  { revert cfg Hreach. apply rtc_ind_r.
    - unfold enqueued. simpl. split_and!; [set_solver..|apply NoDup_singleton].
    - intros cfg1 cfg2 _ Hstep (Henq & Hsub & Hnd). split_and!.
      + by eapply step_enqueued.
      + by eapply step_subset.
      + by eapply step_enqueued_nodup. }
  assert (length (enqueued cfg) ≤ size L + 1) as Hlen.
  { rewrite <-(size_list_to_set (C := gset string)) by done.
    etrans; [apply (subseteq_size _ (L ∪ {[start]}))|].
    - intros x Hx%elem_of_list_to_set. by apply Hsub, Henq.
    - rewrite size_union_alt, <-Nat.add_le_mono_l.
      etrans; [apply subseteq_size, subseteq_difference_l; reflexivity|].
      by rewrite size_singleton. }
  split_and!; [done..|].
  etrans; [|exact Hlen]. unfold enqueued. rewrite length_app. lia.
Qed.

Lemma enqueued_once_witness :
  NoDup (enqueued after_body) ∧
  length (enqueued after_body) ≤ size ({[ "bat" ]} : gset string) + 1 ∧
  length (dequeued after_body) ≤ size ({[ "bat" ]} : gset string) + 1.
Proof.
  apply (enqueued_once "cat" "rat" {[ "bat" ]} after_body).
  eapply rtc_l.
  - apply (step_popleft _ _ [] "cat" ["cat"] [] {[ "cat" ]}).
  - apply rtc_once.
    apply (step_body _ _ ["cat"] "cat" ["cat"] 0 "b"%char).
    reflexivity.
Defined.

(** ** The search in the other direction *)

Section reverse.
Implicit Types (w y : string) (l : list string) (L : gset string).

(** Writing back the character that a candidate step replaced undoes it. *)
Lemma new_word_of_undo w i c ci :
  String.get i w = Some ci → new_word_of (new_word_of w i c) i ci = w.
Proof.
  revert i. induction w as [|a w IH]; intros i Hi; [done|].
  destruct i as [|i].
  - rewrite !new_word_of_0. simpl in Hi. by simplify_eq.
  - rewrite !new_word_of_S. f_equal. by apply IH.
Qed.

Lemma lowercase_edge w y : lowercase w → edge w y → lowercase y.
Proof.
  intros Hw (i & c & ci & Hi & Hc & _ & ->) j a Hj.
  destruct (decide (i = j)) as [->|Hij].
  - erewrite new_word_of_get in Hj by done. by simplify_eq.
  - erewrite new_word_of_get_ne in Hj by done. by eapply Hw.
Qed.

(** From a lower-case word a candidate step can be taken back. *)
Lemma edge_sym w y : lowercase w → edge w y → edge y w.
Proof.
  intros Hw (i & c & ci & Hi & Hc & Hne & ->).
  exists i, ci, c. split_and!.
  - by eapply new_word_of_get.
  - by eapply Hw.
  - done.
  - symmetry. by apply new_word_of_undo.
Qed.

Lemma linked_edge_reverse l a :
  linked edge l → head l = Some a → lowercase a → linked edge (reverse l).
Proof.
  revert a. induction l as [|x l IH]; intros a Hl Ha Hlow; [done|].
  simpl in Ha. simplify_eq. apply linked_cons in Hl as [Hhd Hl].
  rewrite reverse_cons. apply linked_snoc. split.
  - destruct l as [|x1 l]; [done|]. apply (IH x1); [done..|].
    eapply lowercase_edge; [done|]. by apply Hhd.
  - intros z. rewrite last_reverse. intros Hz.
    apply edge_sym; [done|]. by apply Hhd.
Qed.

Lemma elem_of_tail (l : list string) x : x ∈ tail l → x ∈ l.
Proof. destruct l; [done|]. simpl. by right. Qed.

(** The elements after the first of a list without repetitions are not the
    first. *)
Lemma tail_not_head (l : list string) a x :
  NoDup l → head l = Some a → x ∈ tail l → x ≠ a.
Proof.
  destruct l as [|x0 l]; [done|]. simpl. intros Hnd [= ->] Hx ->.
  by apply NoDup_cons in Hnd as [? _].
Qed.

(** A result read backwards is a transformation sequence from the target to
    the start, when the start word is lower-case. *)
Lemma good_result_reverse start end_ L (L' : gset string) r :
  lowercase start → good_result start end_ L r →
  (∀ x, x ∈ r → x ≠ end_ → x ∈ L') →
  transformation edge L' end_ start (reverse r).
Proof.
  intros Hlow [Hh Hl Hlk Hnd Hlex] HL'. split.
  - by rewrite head_reverse.
  - by rewrite last_reverse.
  - by eapply linked_edge_reverse.
  - intros x Hx. apply HL'.
    + by apply elem_of_reverse, elem_of_tail.
    + eapply (tail_not_head (reverse r)); [by rewrite reverse_Permutation| |done].
      by rewrite head_reverse.
Qed.
End reverse.

(** X15 (other direction): when the start word is lower-case and the call
    finds a sequence, the call from the target back to the start, with the
    start word added to the lexicon, finds a sequence of the same length. *)
Theorem word_ladder_reverse (start end_ : string) (L : gset string)
    (r : list string) :
  lowercase start →
  word_ladder start end_ L = Some (Returned r) → r ≠ [] →
  ∃ r', word_ladder end_ start (L ∪ {[start]}) = Some (Returned r') ∧
        length r' = length r.
Proof.
  intros Hlow Hr Hnil.
  pose proof (word_ladder_good _ _ _ _ Hr Hnil) as Hgood.
  assert (lowercase end_) as Hlow'.
  { destruct Hgood as [Hh Hl Hlk _ _]. clear Hr Hnil.
    revert start Hlow Hh. induction r as [|x r IH]; intros a Hlow Hh; [done|].
    simpl in Hh. simplify_eq. apply linked_cons in Hlk as [Hhd Hlk].
    destruct r as [|x1 r]; [simpl in Hl; by simplify_eq|].
    rewrite last_cons_cons in Hl. apply (IH Hl Hlk x1); [|done].
    eapply lowercase_edge; [done|]. by apply Hhd. }
  destruct (word_ladder_route_found end_ start (L ∪ {[start]}) (reverse r))
    as (r' & Hr' & Hnil' & Hle).
  { apply (good_result_reverse start end_ L); [done..|].
    intros x Hx _. destruct Hgood as [Hh _ _ _ Hlex].
    destruct r as [|x0 r]; [done|]. simpl in *. simplify_eq.
    apply elem_of_cons in Hx as [->|Hx]; set_solver. }
  exists r'. split; [done|]. rewrite length_reverse in Hle.
  pose proof (word_ladder_good _ _ _ _ Hr' Hnil') as Hgood'.
  assert (length r ≤ length (reverse r')); [|rewrite length_reverse in *; lia].
  eapply word_ladder_shortest; [done..|].
  apply (good_result_reverse end_ start (L ∪ {[start]})); [done..|].
  intros x Hx Hxs. destruct Hgood' as [Hh' _ _ _ Hlex'].
  destruct r' as [|x0 r']; [done|]. simpl in *. simplify_eq.
  apply elem_of_cons in Hx as [->|Hx]; [|set_solver].
  destruct Hgood as [Hh Hl _ _ Hlex]. apply Hlex.
  by eapply last_in_tail.
Qed.

Lemma word_ladder_reverse_witness :
  ∃ r', word_ladder "cog" "hit" (example_lexicon ∪ {[ "hit" ]})
          = Some (Returned r') ∧
        length r' = length ["hit"; "hot"; "dot"; "dog"; "cog"].
Proof.
  apply (word_ladder_reverse "hit" "cog" example_lexicon).
  - intros [|[|[|i]]] a [= <-]; by vm_compute; set_solver.
  - vm_compute. reflexivity.
  - discriminate.
Defined.

(** ** Calls one after the other *)

Section calls.
Implicit Types (h : heap) (L : gset string).

(** Any call that returns leaves the caller's object as it was. *)
Lemma word_ladder_ref_keeps fuel start end_ dictionary h L c h' :
  h !! dictionary = Some L →
  word_ladder_ref fuel start end_ dictionary h = Some (c, h') →
  h' !! dictionary = Some L.
Proof.
  intros Hl. rewrite (word_ladder_ref_spec _ _ _ _ _ _ Hl).
  destruct (word_ladder_fuel fuel start end_ L) as [c0|]; [|done]. simpl.
  intros [= <- <-]. case_decide; [done|].
  rewrite lookup_insert_ne; [done|]. by eapply fresh_not_live.
Qed.
End calls.

(** X16 (no state between calls): after a call on a set object has returned,
    a further call on the same object, with any start and target, returns
    what the call on the original contents returns, and again leaves the
    object as it was. *)
Theorem word_ladder_ref_again (fuel : nat) (start end_ start' end' : string)
    (dictionary : nat) (h h' : heap) (L : gset string) (c : completion) :
  h !! dictionary = Some L →
  word_ladder_ref fuel start end_ dictionary h = Some (c, h') →
  ∃ c' h'',
    word_ladder_ref (size L + 2) start' end' dictionary h' = Some (c', h'') ∧
    word_ladder start' end' L = Some c' ∧
    h'' !! dictionary = Some L.
Proof.
  intros Hl Hcall.
  pose proof (word_ladder_ref_keeps _ _ _ _ _ _ _ _ Hl Hcall) as Hl'.
  destruct (word_ladder_returns start' end' L) as [r Hr].
  destruct (word_ladder_ref (size L + 2) start' end' dictionary h')
    as [[c' h'']|] eqn:Hcall'.
  - exists c', h''. split; [done|]. split; [|by eapply word_ladder_ref_keeps].
    rewrite (word_ladder_ref_spec _ _ _ _ _ _ Hl') in Hcall'.
    unfold word_ladder in *. rewrite Hr in *. simpl in Hcall'. by simplify_eq.
  - rewrite (word_ladder_ref_spec _ _ _ _ _ _ Hl') in Hcall'.
    unfold word_ladder in Hr. by rewrite Hr in Hcall'.
Qed.

Lemma word_ladder_ref_again_witness :
  ∃ c' h'',
    word_ladder_ref (size ({[ "bat" ]} : gset string) + 2) "bat" "cat" 7
      (<[8 := {[ "bat" ]} ∪ {[ "cat" ]}]> {[ 7 := {[ "bat" ]} ]})
    = Some (c', h'') ∧
    word_ladder "bat" "cat" {[ "bat" ]} = Some c' ∧
    h'' !! 7 = Some ({[ "bat" ]} : gset string).
Proof.
  apply (word_ladder_ref_again 3 "cat" "bat" "bat" "cat" 7
           {[ 7 := {[ "bat" ]} ]}
           (<[8 := {[ "bat" ]} ∪ {[ "cat" ]}]> {[ 7 := {[ "bat" ]} ]})
           {[ "bat" ]} (Returned ["cat"; "bat"])).
  - vm_compute. reflexivity.
  - vm_compute. reflexivity.
Defined.
